(** * py_grama: sampling, calibration and constrained minimisation

    A shallow embedding of [grama/evals/random_sampling.py]
    ([eval_monte_carlo]), [grama/eval_opt.py] ([eval_nls], [eval_min]) and
    [grama/mutate_helpers.py] ([fct_reorder]), with the properties stated
    about them.

    Conventions.
    - The sampler computes on the numbers of a [Number] structure: binary64
      as NumPy has them, or exact rationals, the idealisation in which the
      bounds on uniform samples hold. [norm.cdf], [norm.ppf] and NumPy's
      generators are parameters.
    - A Python exception is a value of [exn]; code that may raise returns
      [exn + A] ([inl] is a raise, [inr] a normal return).
    - A Python [set] of names is a [gset string]; turning it into a list goes
      through an iteration order, which CPython derives from the per-process
      string hash and which is therefore a parameter ([SetOrder]). *)

From Stdlib Require Import QArith Lqa.
From Stdlib Require PrimFloat.
From stdpp Require Import base list strings gmap sets sorting.

Local Open Scope string_scope.
Local Open Scope list_scope.

(** ** Exceptions *)

(** What a message is formatted with: nothing, a list of names ([str.format]
    of a list) or a set of names ([str.format] of a set). *)
Inductive detail : Type :=
  | NoDetail
  | Names (l : list string)
  | NameSet (s : gset string).

Inductive exn : Type :=
  | ValueError (msg : string) (d : detail)
  | KeyError (key : string)
  | IndexError
  | IndexingError
  | AttributeError
  | TypeError
  | NotImplementedError.

Definition raised {A} (r : exn + A) : Prop :=
  match r with inl _ => True | inr _ => False end.

(** ** The numbers of the sampler *)

(** The entries of the arrays, with the constants that [np.eye] and
    [np.ones] write and the arithmetic of the marginal conversion. *)
Class Number := {
  num : Type;
  num_zero : num;
  num_one : num;
  num_add : num -> num -> num;
  num_sub : num -> num -> num;
  num_mul : num -> num -> num
}.

(** Exact rationals. *)
#[export] Instance exact : Number := {|
  num := Q;
  num_zero := 0%Q;
  num_one := 1%Q;
  num_add := Qplus;
  num_sub := Qminus;
  num_mul := Qmult
|}.


(** ** NumPy arrays as nested lists *)

Abbreviation matrix := (list (list num)).

Section Arrays.
Context `{Number}.

Definition entry (M : matrix) (i j : nat) : option num :=
  match M !! i with
  | Some row => row !! j
  | None => None
  end.

Definition set_entry (M : matrix) (i j : nat) (v : num) : matrix :=
  alter (fun row => <[j := v]> row) i M.

(** [np.eye(n)] *)
Definition np_eye (n : nat) : matrix :=
  map (fun i => map (fun j => if Nat.eqb i j then num_one else num_zero) (seq 0 n))
      (seq 0 n).

(** [np.ones(n)] *)
Definition np_ones (n : nat) : list num := repeat num_one n.

(** [np.triu_indices(n, 1)]: the positions strictly above the diagonal, in
    row-major order. *)
Definition triu_indices (n : nat) : list (nat * nat) :=
  flat_map (fun i => map (fun j => (i, j)) (seq (S i) (n - S i))) (seq 0 n).

(** [np.tril_indices(n, -1)]: the positions strictly below the diagonal, in
    row-major order. *)
Definition tril_indices (n : nat) : list (nat * nat) :=
  flat_map (fun i => map (fun j => (i, j)) (seq 0 i)) (seq 0 n).

Definition write_all (M : matrix) (ivs : list ((nat * nat) * num)) : matrix :=
  fold_left (fun acc iv => set_entry acc (fst (fst iv)) (snd (fst iv)) (snd iv)) ivs M.

(** [M[idx] = vals] with an index pair of arrays: the values are written
    position by position; a single value is broadcast; any other length is
    NumPy's shape-mismatch [ValueError]. *)
Definition assign_indices (M : matrix) (idx : list (nat * nat)) (vals : list num)
  : exn + matrix :=
  if Nat.eqb (length vals) (length idx) then inr (write_all M (zip idx vals))
  else match vals with
       | [v] => inr (write_all M (map (fun ij => (ij, v)) idx))
       | _ => inl (ValueError "shape mismatch" NoDetail)
       end.

(** Lines 34-36 of [eval_monte_carlo]: the correlation structure. *)
Definition build_Sigma (n_in : nat) (pdf_corr : list num) : exn + matrix :=
  match assign_indices (np_eye n_in) (triu_indices n_in) pdf_corr with
  | inl e => inl e
  | inr S1 => assign_indices S1 (tril_indices n_in) pdf_corr
  end.

Definition symmetric (M : matrix) : Prop :=
  forall i j, entry M i j = entry M j i.

Definition unit_diagonal (n : nat) (M : matrix) : Prop :=
  forall i, (i < n)%nat -> entry M i i = Some num_one.

End Arrays.

(** ** Exceptions as a monad *)

#[export] Instance exn_ret : MRet (sum exn) := fun _ a => inr a.
#[export] Instance exn_bind : MBind (sum exn) := fun _ _ f r =>
  match r with
  | inl e => inl e
  | inr a => f a
  end.

(** * grama/evals/random_sampling.py *)

Module RandomSampling.

Section Sampler.
Context `{Number}.

(** The attributes of the model that [eval_monte_carlo] reads. *)
Record Density := {
  pdf_factors : list string;
  pdf_param : list (gmap string num);
  pdf_corr : option (list num)
}.

Record Domain := { inputs : list string }.

Record Model := {
  n_in : nat;
  density : option Density;
  domain : Domain
}.

(** [pd.DataFrame(data = ..., columns = ...)] *)
Record DataFrame := {
  columns : list string;
  data : matrix
}.

(** What the sampler calls and does not define: NumPy's global generator,
    SciPy's normal distribution and [core.eval_df]. The generator state is
    [rng]; a draw returns the entries of the array it fills (row, column)
    and the state it leaves. *)
Class Collaborators := {
  rng : Type;
  np_random_seed : Z -> exn + rng;
  np_random_random : nat -> nat -> rng -> (nat -> nat -> num) * rng;
  np_random_multivariate_normal :
    list num -> matrix -> nat -> rng -> (nat -> nat -> num) * rng;
  norm_cdf : num -> num;
  norm_ppf : num -> num -> num -> num;
  eval_df : Model -> DataFrame -> bool -> exn + DataFrame
}.

(** The array of shape [(rows, cols)] with the given entries. *)
Definition tabulate (rows cols : nat) (f : nat -> nat -> num) : matrix :=
  map (fun i => map (fun j => f i j) (seq 0 cols)) (seq 0 rows).

Context `{!Collaborators}.

(** Code that reads and writes the process-wide generator and may raise. *)
Definition St (A : Type) : Type := rng -> (exn + A) * rng.

Definition st_ret {A} (a : A) : St A := fun s => (inr a, s).
Definition st_bind {A B} (m : St A) (f : A -> St B) : St B := fun s =>
  match m s with
  | (inl e, s') => (inl e, s')
  | (inr a, s') => f a s'
  end.
Definition lift {A} (r : exn + A) : St A := fun s => (r, s).

#[export] Instance st_mret : MRet St := @st_ret.
#[export] Instance st_mbind : MBind St := fun A B f m => st_bind m f.

(** Lines 20-25. *)
Definition check_density (model : Model) : exn + Density :=
  match density model with
  | Some d =>
      if negb (Nat.eqb (length (pdf_factors d)) (length (pdf_param d)))
      then inl (ValueError
        "model.density.pdf_factors not same length as model.density.pdf_param!" NoDetail)
      else inr d
  | None => inl (ValueError "Model density must be factorable!" NoDetail)
  end.

(** Lines 27-29: [np.random.seed(seed)] replaces the generator state; a
    seed NumPy rejects raises and leaves the state as it was. *)
Definition set_seed (seed : option Z) : St unit :=
  match seed with
  | None => st_ret tt
  | Some sd => fun s =>
      match np_random_seed sd with
      | inl e => (inl e, s)
      | inr s' => (inr tt, s')
      end
  end.

(** Line 39: the mean handed to [multivariate_normal]. *)
Definition gaussian_mean (model : Model) : list num := np_ones (n_in model).

(** [np.random.multivariate_normal(mean, cov, size)] with [mean] of
    length [n]: an array of shape [(size, n)]. *)
Definition multivariate_normal (mean : list num) (cov : matrix) (size : nat)
  : St matrix := fun s =>
  let (g, s') := np_random_multivariate_normal mean cov size s in
  (inr (tabulate size (length mean) g), s').

(** [np.random.random((rows, cols))] *)
Definition random (rows cols : nat) : St matrix := fun s =>
  let (u, s') := np_random_random rows cols s in
  (inr (tabulate rows cols u), s').

(** Lines 31-47. *)
Definition draw_samples (model : Model) (d : Density) (n_samples : nat)
  : St matrix :=
  match pdf_corr d with
  | Some corr =>
      Sigma ← lift (build_Sigma (n_in model) corr);
      gaussian_samples ← multivariate_normal (gaussian_mean model) Sigma n_samples;
      mret (map (map norm_cdf) gaussian_samples)
  | None => random n_samples (n_in model)
  end.

(** [samples[:, ind] = f(samples[:, ind])] *)
Definition map_column (f : num -> num) (ind : nat) (samples : matrix) : matrix :=
  map (alter f ind) samples.

Definition getitem (p : gmap string num) (key : string) : exn + num :=
  match p !! key with
  | Some v => inr v
  | None => inl (KeyError key)
  end.

Definition index {A} (l : list A) (ind : nat) : exn + A :=
  match l !! ind with
  | Some v => inr v
  | None => inl IndexError
  end.

(** Lines 52-55: [samples * (upper - lower) + lower], in the arithmetic of
    the numbers. *)
Definition unif_quantile (lower upper u : num) : num :=
  num_add (num_mul u (num_sub upper lower)) lower.

(** Lines 51-63: one pass of the loop body. *)
Definition convert_column (d : Density) (ind : nat) (samples : matrix)
  : exn + matrix :=
  fac ← index (pdf_factors d) ind;
  if String.eqb fac "unif" then
    p ← index (pdf_param d) ind;
    upper ← getitem p "upper";
    lower ← getitem p "lower";
    mret (map_column (unif_quantile lower upper) ind samples)
  else if String.eqb fac "norm" then
    p ← index (pdf_param d) ind;
    loc ← getitem p "loc";
    scale ← getitem p "scale";
    mret (map_column (fun u => norm_ppf u loc scale) ind samples)
  else mret samples.

(** Lines 49-63: [for ind in range(model.n_in)]. *)
Fixpoint convert_columns (d : Density) (inds : list nat) (samples : matrix)
  : exn + matrix :=
  match inds with
  | [] => inr samples
  | ind :: rest =>
      samples' ← convert_column d ind samples;
      convert_columns d rest samples'
  end.

Definition convert_marginals (model : Model) (d : Density) (samples : matrix)
  : exn + matrix :=
  convert_columns d (seq 0 (n_in model)) samples.

(** Lines 65-69: pandas refuses column labels whose number differs from
    the width of the data. *)
Definition make_inputs (model : Model) (samples : matrix) : exn + DataFrame :=
  if Nat.eqb (length (inputs (domain model))) (n_in model)
  then inr {| columns := inputs (domain model); data := samples |}
  else inl (ValueError "Shape of passed values" NoDetail).

(** Lines 20-69: everything up to the table handed to the evaluator. *)
Definition sample_inputs (model : Model) (n_samples : nat) (seed : option Z)
  : St DataFrame :=
  d ← lift (check_density model);
  set_seed seed;;
  samples ← draw_samples model d n_samples;
  samples' ← lift (convert_marginals model d samples);
  lift (make_inputs model samples').

Definition eval_monte_carlo (model : Model) (n_samples : nat)
    (seed : option Z) (append : bool) : St DataFrame :=
  df_inputs ← sample_inputs model n_samples seed;
  lift (eval_df model df_inputs append).

End Sampler.

End RandomSampling.

(** * Python sets and their iteration order *)

(** [list(s)] for a set [s] of strings enumerates its elements once each, in
    an order fixed by the interpreter (string hashing is salted per process
    unless PYTHONHASHSEED is set). *)
Record SetOrder := {
  set_list : gset string -> list string;
  set_list_perm : forall s, set_list s ≡ₚ elements s
}.

(** * grama/eval_opt.py *)

Module EvalOpt.

(** The floating-point numbers of the tables, with the operations the two
    functions apply to them. *)
Class Float := {
  V : Type;
  of_int : Z -> V;
  fadd : V -> V -> V;
  fsub : V -> V -> V;
  fmul : V -> V -> V;
  fdiv : V -> V -> V;
  feqb : V -> V -> bool;
  isfinite : V -> bool
}.

(** A pandas DataFrame, column by column, in column order. The length of
    its index is the length of its columns, so a table without columns
    stands for the empty [DataFrame()]. Where the code selects columns of a
    table and then uses the index of the selection, which pandas keeps also
    when no column is selected, the length of that index is passed along
    with the selected columns. *)
Abbreviation DataFrame := (list (string * list V)).

Section Tables.
Context `{Float}.

Definition columns (df : DataFrame) : list string := map fst df.

Fixpoint column (df : DataFrame) (name : string) : option (list V) :=
  match df with
  | [] => None
  | (n, vs) :: rest => if String.eqb n name then Some vs else column rest name
  end.

(** [df.shape[0]] *)
Definition nrows (df : DataFrame) : nat :=
  match df with
  | [] => 0
  | (_, vs) :: _ => length vs
  end.

(** [df[names]] *)
Fixpoint getcols (df : DataFrame) (names : list string) : exn + DataFrame :=
  match names with
  | [] => inr []
  | n :: rest =>
      match column df n with
      | None => inl (KeyError n)
      | Some vs => rest' ← getcols df rest; mret ((n, vs) :: rest')
      end
  end.

(** [sel.iloc[[i]]] for a selection [sel] of columns of a table whose index
    has length [index]: row [i] of each selected column; no column is
    needed for the row to exist. *)
Definition iloc_row (index : nat) (sel : DataFrame) (i : nat)
  : exn + DataFrame :=
  if Nat.ltb i index
  then inr (map (fun c => (fst c, take 1 (drop i (snd c)))) sel)
  else inl IndexError.

(** [sel.iloc[i].values], likewise. *)
Definition iloc_values (index : nat) (sel : DataFrame) (i : nat)
  : exn + list V :=
  if Nat.ltb i index
  then inr (flat_map (fun c => take 1 (drop i (snd c))) sel)
  else inl IndexError.

(** [concat((a, b), axis=1)] *)
Definition concat_columns (a b : DataFrame) : DataFrame := a ++ b.

(** [concat((a, b), axis=0)] for frames with the same columns; an empty
    [DataFrame()] contributes nothing. *)
Definition concat_rows (a b : DataFrame) : DataFrame :=
  match a with
  | [] => b
  | _ => map (fun c => (fst c, snd c ++ default [] (column b (fst c)))) a
  end.

(** [dict(zip(keys, vals))]: insertion-ordered, a repeated key keeps its
    first position and takes the last value. *)
Fixpoint dict_set (d : list (string * V)) (k : string) (v : V)
  : list (string * V) :=
  match d with
  | [] => [(k, v)]
  | (k', v') :: rest =>
      if String.eqb k' k then (k, v) :: rest else (k', v') :: dict_set rest k v
  end.

Definition dict_zip (keys : list string) (vals : list V) : list (string * V) :=
  fold_left (fun d kv => dict_set d (fst kv) (snd kv)) (zip keys vals) [].

(** Modelled from the spec: [grama.df_make] is not under src/; it "builds
    a table from named columns/values", here one row from keyword
    arguments. *)
Definition df_make (kwargs : list (string * V)) : DataFrame :=
  map (fun kv => (fst kv, [snd kv])) kwargs.

(** [a - b] on two columns of [.values], with NumPy's broadcasting of a
    single row. *)
Definition broadcast_sub (a b : list V) : exn + list V :=
  if Nat.eqb (length a) (length b) then inr (zip_with fsub a b)
  else match a, b with
       | [x], _ => inr (map (fun y => fsub x y) b)
       | _, [y] => inr (map (fun x => fsub x y) a)
       | _, _ => inl (ValueError "operands could not be broadcast together" NoDetail)
       end.

Fixpoint residuals (a b : DataFrame) : exn + list V :=
  match a, b with
  | (_, ca) :: ra, (_, cb) :: rb =>
      r ← broadcast_sub ca cb; rest ← residuals ra rb; mret (r ++ rest)
  | _, _ => inr []
  end.

(** [(r ** 2).mean()] *)
Definition mean_square (r : list V) : V :=
  fdiv (fold_left fadd (map (fun x => fmul x x) r) (of_int 0))
       (of_int (Z.of_nat (length r))).

End Tables.

(** ** The model and the collaborators *)

Section Optimisers.
Context `{Float}.

Record Marginal := { q : V -> V }.

Record Density := { marginals : gmap string Marginal }.

(** The methods of [model.domain] that [eval_nls] calls; the class is not
    under src/, so they are parameters of the model. *)
Record Domain := {
  get_width : string -> V;
  get_nominal : string -> V;
  get_bound : string -> V * V
}.

Record Model := {
  var : list string;
  var_det : list string;
  var_rand : list string;
  out : list string;
  domain : Domain;
  density : option Density
}.

(** Modelled from the spec: the attribute [model.n_var_rand] is not under
    src/; it is the number of random variables of the model. *)
Definition n_var_rand (model : Model) : nat := length (var_rand model).

(** [scipy.optimize.OptimizeResult], the fields that are read. *)
Record OptimizeResult := {
  res_x : list V;
  res_status : Z;
  res_fun : V
}.

Record Constraint := {
  ctype : string;
  cfun : list V -> exn + list V
}.

(** What the two functions call and do not define. [tran_outer] is given
    the length of the index of its left operand, [df_data[var_feat]], which
    has the rows of [df_data] also when [var_feat] is empty.
    [minimize_bounded] is
    [scipy.optimize.minimize] as [eval_nls] calls it (objective, start,
    tolerance, iteration limit, bounds), [minimize_constrained] as
    [eval_min] calls it (objective, start table, method, tolerance,
    iteration limit, constraints). *)
Class Collaborators := {
  eval_nominal : Model -> exn + DataFrame;
  eval_df : Model -> DataFrame -> exn + DataFrame;
  tran_outer : nat -> DataFrame -> DataFrame -> exn + DataFrame;
  minimize_bounded :
    (list V -> exn + V) -> list V -> V -> Z -> list (V * V)
    -> exn + OptimizeResult;
  minimize_constrained :
    (list V -> exn + list V) -> DataFrame -> string -> V -> Z
    -> list Constraint -> exn + OptimizeResult
}.

(** ** Effects: a log of what was printed and which solver calls were
    made, and an exception or a value *)

Inductive event : Type :=
  | Print (label : string) (value : list string)
  | Minimize (x0 : list (list V)).

Definition M (A : Type) : Type := list event * (exn + A).

#[export] Instance M_ret : MRet M := fun _ a => ([], inr a).
#[export] Instance M_bind : MBind M := fun _ _ f m =>
  match m with
  | (log, inl e) => (log, inl e)
  | (log, inr a) => let (log', r) := f a in (log ++ log', r)
  end.

Definition raise {A} (e : exn) : M A := ([], inl e).
Definition tell (ev : event) : M unit := ([ev], inr tt).
Definition lift {A} (r : exn + A) : M A := ([], r).
Definition raise_if (b : bool) (e : exn) : M unit :=
  if b then raise e else mret tt.

Definition is_solver_call (ev : event) : bool :=
  match ev with
  | Minimize _ => true
  | Print _ _ => false
  end.

(** The number of solver invocations of a run. *)
Definition solver_calls {A} (m : M A) : nat :=
  length (filter (fun ev => is_solver_call ev = true) (fst m)).

Definition outcome {A} (m : M A) : exn + A := snd m.

(** A run that raises without having reached the solver. *)
Definition refused {A} (m : M A) : Prop :=
  raised (outcome m) /\ solver_calls m = 0%nat.

Context (order : SetOrder) `{Collaborators}.

(** ** eval_nls *)

Definition is_empty (s : gset string) : bool := bool_decide (s = ∅).

(** Line 70. *)
Definition out_diff (names columns : list string) : gset string :=
  list_to_set names ∖ list_to_set columns.

(** Lines 78-85. *)
Definition var_fix_set (model : Model) (var_fix : option (list string))
  : gset string :=
  fold_left
    (fun acc v =>
       let wid := get_width (domain model) v in
       if feqb wid (of_int 0) then acc ∪ {[v]} else acc)
    (var_det model)
    (match var_fix with
     | None => ∅
     | Some l => list_to_set l
     end).

(** Line 89. *)
Definition var_feat_set (model : Model) (df_data : DataFrame) : gset string :=
  list_to_set (var model) ∩ list_to_set (columns df_data).

(** Line 93. *)
Definition var_fit_set (model : Model) (var_fix var_feat : gset string)
  : gset string :=
  list_to_set (var model) ∖ (var_fix ∪ var_feat).

(** Lines 101-102. *)
Definition var_fit_det (model : Model) (var_fit : gset string) : list string :=
  set_list order (list_to_set (var_det model) ∩ var_fit).

Definition var_fit_rand (model : Model) (var_fit : gset string) : list string :=
  set_list order (list_to_set (var_rand model) ∩ var_fit).

(** Line 105. *)
Definition var_fit_list (model : Model) (var_fit : gset string) : list string :=
  var_fit_det model var_fit ++ var_fit_rand model var_fit.

(** The final [var_fit] of a call, from its arguments. *)
Definition nls_var_fit (model : Model) (df_data : DataFrame)
    (var_fix : option (list string)) : list string :=
  var_fit_list model
    (var_fit_set model (var_fix_set model var_fix) (var_feat_set model df_data)).

(** Lines 107-110: the deterministic fit variables without a finite
    nominal value. *)
Definition var_prob (model : Model) (fit_det : list string) : list string :=
  filter (fun v => isfinite (get_nominal (domain model) v) = false) fit_det.

(** Lines 118-121. *)
Fixpoint rand_bounds (model : Model) (fit_rand : list string)
  : exn + list (V * V) :=
  match fit_rand with
  | [] => inr []
  | v :: rest =>
      match density model with
      | None => inl AttributeError
      | Some d =>
          match marginals d !! v with
          | None => inl (KeyError v)
          | Some mg =>
              rest' ← rand_bounds model rest;
              mret ((q mg (of_int 0), q mg (of_int 1)) :: rest')
          end
      end
  end.

(** Lines 140-143: the row of values held fixed and of trial values.
    [df_nom[var_fix]] has the index of [df_nom], so its first row exists
    also when [var_fix] is empty. *)
Definition fixed_row (df_nom : DataFrame) (var_fix : gset string)
    (var_fit : list string) (x : list V) : exn + DataFrame :=
  nom_fix ← getcols df_nom (set_list order var_fix);
  nom_row ← iloc_row (nrows df_nom) nom_fix 0;
  mret (concat_columns nom_row (df_make (dict_zip var_fit x))).

(** Lines 135-148. *)
Definition objective (model : Model) (df_data df_nom : DataFrame)
    (out_names : list string) (var_feat var_fix : gset string)
    (var_fit : list string) (x : list V) : exn + V :=
  feat ← getcols df_data (set_list order var_feat);
  row ← fixed_row df_nom var_fix var_fit x;
  df_var ← tran_outer (nrows df_data) feat row;
  df_res ← eval_df model df_var;
  pred ← getcols df_res out_names;
  obs ← getcols df_data out_names;
  r ← residuals pred obs;
  mret (mean_square r).

(** Modelled from the spec: [grama.tran_outer] is not under src/; the spec
    has it "producing the broadcast row product of two tables". What is
    used of it: in the product of a table of [n] rows with a table [b], a
    column that only [b] has holds each of its values in [n] rows. *)
Definition broadcasts_rows : Prop :=
  forall n (a b df : DataFrame) c vals,
    tran_outer n a b = inr df ->
    c ∉ columns a -> column b c = Some vals ->
    column df c = Some (flat_map (fun v => repeat v n) vals).

(** Lines 165-170: the keyword arguments of [df_make]; Python refuses a
    keyword given twice. *)
Definition result_row (var_fit : list string) (x0 : list V)
    (res : OptimizeResult) : exn + DataFrame :=
  let kwargs :=
    dict_zip var_fit (res_x res)
    ++ dict_zip (map (fun s => s +:+ "_0") var_fit) x0
    ++ [("status", of_int (res_status res)); ("mse", res_fun res)] in
  if bool_decide (NoDup (map fst kwargs)) then inr (df_make kwargs)
  else inl TypeError.

(** Lines 67-69: what is printed when [out] is left to its default. *)
Definition out_notice (model : Model) (out_arg : option (list string))
  : list event :=
  match out_arg with
  | None => [Print "... eval_nls setting out = " (out model)]
  | Some _ => []
  end.

(** Lines 132-173: one solve per row of the initial guesses, [df_init]
    being columns of a table whose index has length [index]. *)
Fixpoint nls_iterate (obj : list V -> exn + V) (index : nat)
    (df_init : DataFrame) (var_fit : list string) (tol : V) (maxiter : Z)
    (bounds : list (V * V)) (rows : list nat) (df_res : DataFrame)
  : M DataFrame :=
  match rows with
  | [] => mret df_res
  | i :: rest =>
      init ← lift (getcols df_init var_fit);
      x0 ← lift (iloc_values index init i);
      tell (Minimize [x0]);;
      res ← lift (minimize_bounded obj x0 tol maxiter bounds);
      row ← lift (result_row var_fit x0 res);
      nls_iterate obj index df_init var_fit tol maxiter bounds rest
        (concat_rows df_res row)
  end.

Definition eval_nls (model : Model) (df_data : option DataFrame)
    (out_arg : option (list string)) (var_fix : option (list string))
    (append : bool) (tol : V) (maxiter : Z) (nrestart : Z) : M DataFrame :=
  (* lines 66-75 *)
  out_names ← match out_arg with
              | None =>
                  tell (Print "... eval_nls setting out = " (out model));;
                  mret (out model)
              | Some o => mret o
              end;
  df_data ← match df_data with
            | None => raise AttributeError
            | Some d => mret d
            end;
  let set_diff := out_diff out_names (columns df_data) in
  raise_if (negb (is_empty set_diff))
    (ValueError "out must be subset of df_data.columns" (NameSet set_diff));;
  (* lines 77-86 *)
  let var_fix := var_fix_set model var_fix in
  tell (Print "... eval_nls setting var_fix = " (set_list order var_fix));;
  (* lines 88-90 *)
  let var_feat := var_feat_set model df_data in
  tell (Print "... eval_nls setting var_feat = " (set_list order var_feat));;
  (* lines 92-98 *)
  let var_fit := var_fit_set model var_fix var_feat in
  raise_if (is_empty var_fit)
    (ValueError "No var selected for fitting!" NoDetail);;
  (* lines 100-116 *)
  let fit_det := var_fit_det model var_fit in
  let fit_rand := var_fit_rand model var_fit in
  let var_fit := fit_det ++ fit_rand in
  let bounds_det := map (get_bound (domain model)) fit_det in
  let prob := var_prob model fit_det in
  raise_if (negb (Nat.eqb (length prob) 0))
    (ValueError "all variables to be fitted must finite nominal value"
       (Names prob));;
  (* lines 118-121 *)
  bounds_rand ← lift (rand_bounds model fit_rand);
  let bounds := bounds_det ++ bounds_rand in
  (* lines 123-128 *)
  df_nom ← lift (eval_nominal model);
  df_init ← lift (getcols df_nom var_fit);
  raise_if (1 <? nrestart)%Z NotImplementedError;;
  (* lines 130-173; [df_init.shape[0]] is the length of the index of
     [df_nom], which the selection keeps *)
  let obj := objective model df_data df_nom out_names var_feat var_fix var_fit in
  df_res ← nls_iterate obj (nrows df_nom) df_init var_fit tol maxiter bounds
             (seq 0 (nrows df_nom)) [];
  (* lines 175-179 *)
  if append then mret df_res else lift (getcols df_res var_fit).

(** ** eval_min *)

(** Lines 273-279. *)
Definition make_fun (model : Model) (out_name : string) (x : list V)
  : exn + list V :=
  if negb (Nat.eqb (length x) (length (var model)))
  then inl (ValueError "columns passed" NoDetail)
  else
    let df := map (fun nv => (fst nv, [snd nv])) (zip (var model) x) in
    df_res ← eval_df model df;
    match column df_res out_name with
    | Some vs => inr vs
    | None => inl (KeyError out_name)
    end.

Definition opt_names (names : option (list string)) : list string :=
  default [] names.

(** Lines 254-259 and 260-265: the same check for [out_geq] and for
    [out_eq], each with its own message. *)
Definition check_outputs (msg : string) (model : Model)
    (names : option (list string)) : M unit :=
  match names with
  | None => mret tt
  | Some l =>
      let diff := out_diff l (out model) in
      raise_if (negb (is_empty diff)) (ValueError msg (NameSet diff))
  end.

Definition eval_min (model : Model) (out_min : option string)
    (out_geq out_eq : option (list string)) (method : string) (tol : V)
    (nrestart : Z) (maxiter : Z) (df_start : option DataFrame)
  : M DataFrame :=
  (* lines 247-249 *)
  raise_if (Nat.ltb 0 (n_var_rand model))
    (ValueError "model must have no random variables" NoDetail);;
  (* lines 250-252 *)
  out_min ← match out_min with
            | Some o =>
                if bool_decide (o ∈ out model) then mret o
                else raise (ValueError "model must contain out_min" NoDetail)
            | None => raise (ValueError "model must contain out_min" NoDetail)
            end;
  (* lines 253-265 *)
  check_outputs "model must contain each out_geq; missing" model out_geq;;
  check_outputs "model must contain each out_eq; missing" model out_eq;;
  (* lines 267-270 *)
  df_start ← match df_start with
             | None => lift (eval_nominal model)
             | Some d => mret d
             end;
  x0 ← lift (getcols df_start (var model));
  (* lines 281-294 *)
  let constraints :=
    map (fun o => {| ctype := "ineq"; cfun := make_fun model o |})
        (opt_names out_geq)
    ++ map (fun o => {| ctype := "eq"; cfun := make_fun model o |})
        (opt_names out_eq) in
  (* lines 296-311 *)
  tell (Minimize (map snd x0));;
  res ← lift (minimize_constrained (make_fun model out_min) x0 method tol
                maxiter constraints);
  mret (df_make (dict_zip (var model) (res_x res))).

(** What lines 247-265 check. *)
Definition names_missing (model : Model) (names : option (list string))
  : gset string :=
  out_diff (opt_names names) (out model).

Definition min_preconditions (model : Model) (out_min : option string)
    (out_geq out_eq : option (list string)) : Prop :=
  n_var_rand model = 0%nat
  /\ (exists o, out_min = Some o /\ o ∈ out model)
  /\ (forall name, name ∈ opt_names out_geq -> name ∈ out model)
  /\ (forall name, name ∈ opt_names out_eq -> name ∈ out model).

End Optimisers.

End EvalOpt.

(** * Concrete instances

    Small models and stand-ins for the collaborators, on which the functions
    above can be run. *)

Module Examples.

(** Two iteration orders for sets of names, one the reverse of the other,
    as two interpreter processes with different hash salts may have. *)
Definition order_a : SetOrder :=
  {| set_list := elements; set_list_perm := fun s => reflexivity _ |}.

Definition order_b : SetOrder :=
  {| set_list := fun s => reverse (elements s);
     set_list_perm := fun s => reverse_Permutation (elements s) |}.

(** Finite floats only, as rationals. *)
#[export] Instance Q_float : EvalOpt.Float := {|
  EvalOpt.V := Q;
  EvalOpt.of_int := inject_Z;
  EvalOpt.fadd := Qplus;
  EvalOpt.fsub := Qminus;
  EvalOpt.fmul := Qmult;
  EvalOpt.fdiv := Qdiv;
  EvalOpt.feqb := Qeq_bool;
  EvalOpt.isfinite := fun _ => true
|}.

Import EvalOpt.

(** A nominal evaluator returning the nominal value of every variable, an
    evaluator computing each output as the sum of the inputs of the row, a
    cross join (each row of the right operand against the [n] rows of the
    left one), and a solver that returns its starting point. *)
Definition nominal_row (model : Model) : DataFrame :=
  map (fun v => (v, [get_nominal (domain model) v])) (var model).

Definition row_sum (df : DataFrame) (i : nat) : Q :=
  fold_left Qplus (flat_map (fun c => take 1 (drop i (snd c))) df) 0%Q.

Definition sum_outputs (model : Model) (df : DataFrame) : DataFrame :=
  map (fun o => (o, map (row_sum df) (seq 0 (nrows df)))) (out model).

Definition cross_join_row (n : nat) (a b : DataFrame) : DataFrame :=
  map (fun c => (fst c, flat_map (fun _ => snd c) (seq 0 (nrows b)))) a
  ++ map (fun c => (fst c, flat_map (fun v => repeat v n) (snd c))) b.

#[export] Instance toy : Collaborators := {|
  eval_nominal := fun m => inr (nominal_row m);
  eval_df := fun m df => inr (sum_outputs m df);
  tran_outer := fun n a b => inr (cross_join_row n a b);
  minimize_bounded := fun obj x0 _ _ _ =>
    v ← obj x0; mret {| res_x := x0; res_status := 0; res_fun := v |};
  minimize_constrained := fun obj x0 _ _ _ _ =>
    let x := flat_map (fun c => take 1 (snd c)) x0 in
    v ← obj x; mret {| res_x := x; res_status := 0; res_fun := default 0%Q (head v) |}
|}.

(** Deterministic variables [a] (fixed at 1: its bounds coincide) and
    [b], [c] in [0, 2]; random variables [r], [s] with quantiles in
    [-1, 1]; one output [y]. *)
Definition box : Domain := {|
  get_width := fun v => if String.eqb v "a" then 0%Q else 2%Q;
  get_nominal := fun _ => 1%Q;
  get_bound := fun v => if String.eqb v "a" then (1%Q, 1%Q) else (0%Q, 2%Q)
|}.

Definition unit_marginal : Marginal := {| q := fun p => (2 * p - 1)%Q |}.

Definition md_fit : Model := {|
  var := ["a"; "b"; "c"; "r"; "s"];
  var_det := ["a"; "b"; "c"];
  var_rand := ["r"; "s"];
  out := ["y"];
  domain := box;
  density := Some {| marginals := {[ "r" := unit_marginal; "s" := unit_marginal ]} |}
|}.

Definition df_obs : DataFrame := [("y", [3%Q; 5%Q])].

(** A model with deterministic variables only and outputs [c], [g1], [g2]. *)
Definition md_det : Model := {|
  var := ["x"; "y"];
  var_det := ["x"; "y"];
  var_rand := [];
  out := ["c"; "g1"; "g2"];
  domain := box;
  density := None
|}.

End Examples.

Module SamplerExamples.

Import RandomSampling.

(** A generator whose state is a counter: the uniform draws cycle through
    0, 1/4, 1/2, 3/4, the normal draws are the mean shifted by the
    counter; the identity stands for the normal distribution functions
    and for the evaluator. *)
#[export] Instance toy : Collaborators := {|
  rng := Z;
  np_random_seed := fun sd =>
    if (sd <? 0)%Z
    then inl (ValueError "Seed must be between 0 and 2**32 - 1" NoDetail)
    else inr sd;
  np_random_random := fun _ _ s =>
    (fun i j => ((s + Z.of_nat i + Z.of_nat j) mod 4 # 4)%Q, (s + 1)%Z);
  np_random_multivariate_normal := fun mean _ _ s =>
    (fun i j => (default 0 (mean !! j) + (s # 1))%Q, (s + 1)%Z);
  norm_cdf := fun x => x;
  norm_ppf := fun u loc scale => (loc + scale * u)%Q;
  eval_df := fun _ df _ => inr df
|}.

(** Two independent uniform inputs on [2, 4] and [-1, 1]. *)
Definition unif_density : Density := {|
  pdf_factors := ["unif"; "unif"];
  pdf_param := [ {[ "lower" := 2%Q; "upper" := 4%Q ]};
                 {[ "lower" := (-1)%Q; "upper" := 1%Q ]} ];
  pdf_corr := None
|}.

Definition md_unif : Model := {|
  n_in := 2;
  density := Some unif_density;
  domain := {| inputs := ["x0"; "x1"] |}
|}.

(** A uniform input and one of a family the sampler does not know. *)
Definition beta_density : Density := {|
  pdf_factors := ["unif"; "beta"];
  pdf_param := [ {[ "lower" := 2%Q; "upper" := 4%Q ]}; ∅ ];
  pdf_corr := None
|}.

Definition md_beta : Model := {|
  n_in := 2;
  density := Some beta_density;
  domain := {| inputs := ["x0"; "x1"] |}
|}.

(** Two inputs with correlation 1/2, and six distinct correlations for
    four inputs. *)
Definition corr_density : Density := {|
  pdf_factors := ["norm"; "norm"];
  pdf_param := [ {[ "loc" := 0%Q; "scale" := 1%Q ]};
                 {[ "loc" := 0%Q; "scale" := 1%Q ]} ];
  pdf_corr := Some [1 # 2]%Q
|}.

Definition md_corr : Model := {|
  n_in := 2;
  density := Some corr_density;
  domain := {| inputs := ["x0"; "x1"] |}
|}.

Definition corr4 : list Q := [1 # 10; 2 # 10; 3 # 10; 4 # 10; 5 # 10; 6 # 10]%Q.

End SamplerExamples.

(** * grama/mutate_helpers.py *)

Module MutateHelpers.

(** [numpy.argsort] with its default sort: the indices in an order that
    sorts the values; the order of equal values is the sort's own. *)
Record ArgSort := {
  argsort : list Q -> list nat;
  argsort_perm : forall l, argsort l ≡ₚ seq 0 (length l);
  argsort_sorted : forall l i j a b va vb,
    (i < j)%nat ->
    argsort l !! i = Some a -> argsort l !! j = Some b ->
    l !! a = Some va -> l !! b = Some vb ->
    (va <= vb)%Q
}.

(** [pandas.Categorical]: the values, [None] for one that is not a
    category (NaN), and the categories in their order. *)
Record Categorical := {
  cat_values : list (option string);
  categories : list string;
  ordered : bool
}.

Definition code (cats : list string) (v : string) : option string :=
  if bool_decide (v ∈ cats) then Some v else None.

(** [as_factor(x, categories = cats, ordered = ordered)], the call that
    [fct_reorder] makes: pandas refuses categories that are not unique. *)
Definition as_factor (x : list string) (cats : list string) (ordered : bool)
  : exn + Categorical :=
  if bool_decide (NoDup cats)
  then inr {| cat_values := map (code cats) x; categories := cats;
              ordered := ordered |}
  else inl (ValueError "Categorical categories must be unique" NoDetail).

(** What [f] and [x] are: two NumPy arrays, or two pandas Series with the
    default index (the rows numbered from 0), as two columns of a table
    are. *)
Inductive container : Type := Array | Series.

(** The values of [x] at the positions, within [x], where [f] is [level]. *)
Definition selected (f : list string) (x : list Q) (level : string) : list Q :=
  map snd (filter (fun p => fst p = level) (zip f x)).

(** [x[f == level]]. With [f] and [x] of one length these are the values
    of [x] where [f] is [level]. Otherwise a NumPy array refuses the mask
    ([IndexError]), and a pandas Series aligns the mask on its own index: a
    longer mask is cut to that index, a shorter one is refused
    ([IndexingError]). *)
Definition masked (kind : container) (f : list string) (x : list Q)
    (level : string) : exn + list Q :=
  if Nat.eqb (length f) (length x) then inr (selected f x level)
  else match kind with
       | Array => inl IndexError
       | Series =>
           if Nat.ltb (length x) (length f) then inr (selected f x level)
           else inl IndexingError
       end.

(** Where the mask is accepted: one length, or a Series with a longer
    mask. *)
Definition mask_accepted (kind : container) (f : list string) (x : list Q)
  : Prop :=
  length f = length x \/ (kind = Series /\ (length x < length f)%nat).

(** Lines 97-100: [values[i] = fun(x[f == levels[i]])]. *)
Fixpoint level_values (kind : container) (summary : list Q -> Q)
    (f : list string) (x : list Q) (levels : list string) : exn + list Q :=
  match levels with
  | [] => inr []
  | level :: rest =>
      xs ← masked kind f x level;
      vs ← level_values kind summary f x rest;
      mret (summary xs :: vs)
  end.

(** [levels[idx]] for an array of indices. *)
Fixpoint take_indices (levels : list string) (idx : list nat) : exn + list string :=
  match idx with
  | [] => inr []
  | i :: rest =>
      match levels !! i with
      | None => inl IndexError
      | Some level => cs ← take_indices levels rest; mret (level :: cs)
      end
  end.

(** [levels[a]] for an index in range. *)
Definition level_at (levels : list string) (a : nat) : string :=
  default "" (levels !! a).

Definition fct_reorder (kind : container) (order : SetOrder) (sorter : ArgSort)
    (summary : list Q -> Q) (f : list string) (x : list Q) : exn + Categorical :=
  let levels := set_list order (list_to_set f) in
  values ← level_values kind summary f x levels;
  cats ← take_indices levels (argsort sorter values);
  as_factor f cats true.

(** A sort for [ArgSort]: merge sort of the positions by their values. *)
Definition by_value (p q : nat * Q) : Prop := Qle_bool (snd p) (snd q) = true.

#[export] Instance by_value_dec p q : Decision (by_value p q).
Proof. unfold by_value. apply _. Defined.

Definition merge_argsort (l : list Q) : list nat :=
  map fst (merge_sort by_value (zip (seq 0 (length l)) l)).

#[export] Instance by_value_transitive : Transitive by_value.
Proof.
  intros p q r. unfold by_value. rewrite !Qle_bool_iff. apply Qle_trans.
Qed.

#[export] Instance by_value_total : Total by_value.
Proof.
  intros p q. unfold by_value. rewrite !Qle_bool_iff.
  destruct (Qlt_le_dec (snd p) (snd q)) as [Hlt|Hle]; [left|by right].
  by apply Qlt_le_weak.
Qed.

Lemma StronglySorted_lookup {A} (R : relation A) (s : list A) :
  StronglySorted R s ->
  forall i j x y, (i < j)%nat -> s !! i = Some x -> s !! j = Some y -> R x y.
Proof.
  induction 1 as [|x0 s Hs IH Hall]; intros i j x y Hij Hi Hj; [done|].
  destruct j as [|j]; [lia|]. simpl in Hj. destruct i as [|i]; simpl in Hi.
  - injection Hi as <-. rewrite Forall_forall in Hall. apply Hall.
    by apply list_elem_of_lookup_2 in Hj.
  - apply (IH i j); [lia|done|done].
Qed.

Lemma elem_of_enumerate (l : list Q) a v :
  (a, v) ∈ zip (seq 0 (length l)) l -> l !! a = Some v.
Proof.
  intros (k & Hk)%list_elem_of_lookup.
  apply lookup_zip_with_Some in Hk as (a' & v' & [= <- <-] & Ha & Hv).
  by apply lookup_seq in Ha as [-> _].
Qed.

Lemma merge_argsort_perm l : merge_argsort l ≡ₚ seq 0 (length l).
Proof.
  unfold merge_argsort. change (@map (nat * Q) nat) with (@fmap list _ (nat * Q) nat).
  rewrite merge_sort_Permutation, fst_zip; [done|].
  by rewrite length_seq.
Qed.

Lemma merge_argsort_sorted l i j a b va vb :
  (i < j)%nat ->
  merge_argsort l !! i = Some a -> merge_argsort l !! j = Some b ->
  l !! a = Some va -> l !! b = Some vb ->
  (va <= vb)%Q.
Proof.
  unfold merge_argsort. change (@map (nat * Q) nat) with (@fmap list _ (nat * Q) nat).
  rewrite !list_lookup_fmap. intros Hij Hi Hj Ha Hb.
  destruct (merge_sort by_value _ !! i) as [[a' wa]|] eqn:Hsi; [|done].
  destruct (merge_sort by_value _ !! j) as [[b' wb]|] eqn:Hsj; [|done].
  simpl in Hi, Hj. injection Hi as ->. injection Hj as ->.
  pose proof (StronglySorted_lookup by_value _
                (StronglySorted_merge_sort by_value _) i j _ _ Hij Hsi Hsj) as Hle.
  apply list_elem_of_lookup_2 in Hsi, Hsj.
  rewrite merge_sort_Permutation in Hsi, Hsj.
  apply elem_of_enumerate in Hsi, Hsj.
  unfold by_value in Hle. simpl in Hle. apply Qle_bool_iff in Hle. congruence.
Qed.

Definition merge_sorter : ArgSort := {|
  argsort := merge_argsort;
  argsort_perm := merge_argsort_perm;
  argsort_sorted := merge_argsort_sorted
|}.

End MutateHelpers.

(** * Notions used in further statements *)

(** A two-dimensional array of the given shape. *)
Definition has_shape `{Number} (rows cols : nat) (M : matrix) : Prop :=
  length M = rows /\ Forall (fun row => length row = cols) M.

(** A run of [eval_opt.py] that stops with the given exception, the solver
    not having been called. *)
Definition stops_with `{EvalOpt.Float} {A} (m : EvalOpt.M A) (e : exn) : Prop :=
  EvalOpt.outcome m = inl e /\ EvalOpt.solver_calls m = 0%nat.

(** One pass of the loop of [eval_nls] (lines 132-173) that went through:
    from row [i] of the initial guesses the solver, run on [obj] within
    [bounds], returned a result, and [row] is the result row made of it. *)
Definition solved_row `{EvalOpt.Float} `{!EvalOpt.Collaborators}
    (obj : list EvalOpt.V -> exn + EvalOpt.V) (index : nat)
    (df_init : list (string * list EvalOpt.V)) (var_fit : list string)
    (tol : EvalOpt.V) (maxiter : Z) (bounds : list (EvalOpt.V * EvalOpt.V))
    (i : nat) (row : list (string * list EvalOpt.V)) : Prop :=
  exists x0 r,
    EvalOpt.iloc_values index df_init i = inr x0
    /\ EvalOpt.minimize_bounded obj x0 tol maxiter bounds = inr r
    /\ EvalOpt.result_row var_fit x0 r = inr row.

(** * Further concrete instances *)

Module MoreExamples.

(** Two inputs, but one factor and one parameter entry only. *)
Definition short_density : RandomSampling.Density := {|
  RandomSampling.pdf_factors := ["unif"];
  RandomSampling.pdf_param := [ {[ "lower" := 0%Q; "upper" := 1%Q ]} ];
  RandomSampling.pdf_corr := None
|}.

Definition md_short : RandomSampling.Model := {|
  RandomSampling.n_in := 2;
  RandomSampling.density := Some short_density;
  RandomSampling.domain := {| RandomSampling.inputs := ["x0"; "x1"] |}
|}.

(** One uniform input whose parameters lack "upper". *)
Definition no_upper_density : RandomSampling.Density := {|
  RandomSampling.pdf_factors := ["unif"];
  RandomSampling.pdf_param := [ {[ "lower" := 0%Q ]} ];
  RandomSampling.pdf_corr := None
|}.

Definition md_no_upper : RandomSampling.Model := {|
  RandomSampling.n_in := 1;
  RandomSampling.density := Some no_upper_density;
  RandomSampling.domain := {| RandomSampling.inputs := ["x0"] |}
|}.

(** Rationals and one value that is not finite and behaves as NaN: it
    absorbs the arithmetic and compares unequal to everything; a division
    by zero gives it. *)
Definition nq_lift (op : Q -> Q -> Q) (a b : option Q) : option Q :=
  match a, b with
  | Some x, Some y => Some (op x y)
  | _, _ => None
  end.

#[export] Instance NQ_float : EvalOpt.Float := {|
  EvalOpt.V := option Q;
  EvalOpt.of_int := fun z => Some (inject_Z z);
  EvalOpt.fadd := nq_lift Qplus;
  EvalOpt.fsub := nq_lift Qminus;
  EvalOpt.fmul := nq_lift Qmult;
  EvalOpt.fdiv := fun a b =>
    match a, b with
    | Some x, Some y => if Qeq_bool y 0 then None else Some (x / y)%Q
    | _, _ => None
    end;
  EvalOpt.feqb := fun a b =>
    match a, b with
    | Some x, Some y => Qeq_bool x y
    | _, _ => false
    end;
  EvalOpt.isfinite := fun a => match a with Some _ => true | None => false end
|}.

(** Collaborators over these numbers: the nominal row of the model, an
    evaluator that returns its input, a cross join of the [n] rows of the
    left operand with the rows of the right one, and solvers that return
    their starting point. *)
#[export] Instance nq_toy : @EvalOpt.Collaborators NQ_float := {|
  EvalOpt.eval_nominal := fun m =>
    inr (map (fun v => (v, [EvalOpt.get_nominal (EvalOpt.domain m) v])) (EvalOpt.var m));
  EvalOpt.eval_df := fun _ df => inr df;
  EvalOpt.tran_outer := fun n a b =>
    inr (a ++ map (fun c => (fst c, flat_map (fun v => repeat v n) (snd c))) b);
  EvalOpt.minimize_bounded := fun obj x0 _ _ _ =>
    v ← obj x0;
    mret {| EvalOpt.res_x := x0; EvalOpt.res_status := 0; EvalOpt.res_fun := v |};
  EvalOpt.minimize_constrained := fun obj x0 _ _ _ _ =>
    let x := flat_map (fun c => take 1 (snd c)) x0 in
    v ← obj x;
    mret {| EvalOpt.res_x := x; EvalOpt.res_status := 0;
            EvalOpt.res_fun := default None (head v) |}
|}.

(** Deterministic variables [a] in [0, 1] and [b] bounded below only, whose
    nominal value is not finite. *)
Definition half_line : @EvalOpt.Domain NQ_float := {|
  EvalOpt.get_width := fun v => if String.eqb v "a" then Some 1%Q else None;
  EvalOpt.get_nominal := fun v => if String.eqb v "a" then Some (1 # 2)%Q else None;
  EvalOpt.get_bound := fun v =>
    if String.eqb v "a" then (Some 0%Q, Some 1%Q) else (Some 0%Q, None)
|}.

Definition md_inf : @EvalOpt.Model NQ_float := {|
  EvalOpt.var := ["a"; "b"];
  EvalOpt.var_det := ["a"; "b"];
  EvalOpt.var_rand := [];
  EvalOpt.out := ["y"];
  EvalOpt.domain := half_line;
  EvalOpt.density := None
|}.

Definition df_y : list (string * list (option Q)) := [("y", [Some 1%Q])].

(** Observations of the output [c] of [Examples.md_det] alone: no variable
    of the model is a column, and none is held fixed. *)
Definition df_c : list (string * list Q) := [("c", [2%Q; 2%Q])].


(** A summary of the values of a level: their sum. *)
Definition sumQ (l : list Q) : Q := fold_right Qplus 0%Q l.

End MoreExamples.

(** * The sampler in binary64 *)

Module Binary64Examples.

Import PrimFloat.
#[local] Set Warnings "-inexact-float".






End Binary64Examples.

(** * Properties of the correlation structure *)

Section Sigma.
Context `{Number}.

Lemma entry_set_entry_other (M : matrix) i j v a b :
  (i, j) ≠ (a, b) -> entry (set_entry M i j v) a b = entry M a b.
Proof.
  intros Hne. unfold entry, set_entry.
  destruct (decide (i = a)) as [->|Hia].
  - rewrite list_lookup_alter_eq. destruct (M !! a) as [row|]; simpl; [|done].
    apply list_lookup_insert_ne. congruence.
  - by rewrite list_lookup_alter_ne.
Qed.

Lemma write_all_other (ivs : list ((nat * nat) * num)) : forall (M : matrix) a b,
  Forall (fun iv => fst iv ≠ (a, b)) ivs ->
  entry (write_all M ivs) a b = entry M a b.
Proof.
  induction ivs as [|[[i j] v] ivs IH]; intros M a b Hall; [done|].
  inversion Hall as [|? ? Hhd Htl]; subst. simpl in Hhd.
  unfold write_all in *. simpl. rewrite IH by done.
  by apply entry_set_entry_other.
Qed.

Lemma elem_of_triu_indices n i j :
  (i, j) ∈ triu_indices n <-> (i < j < n)%nat.
Proof.
  unfold triu_indices. rewrite list_elem_of_In, in_flat_map. split.
  - intros (k & Hk & Hin). apply in_map_iff in Hin as (l & Heq & Hl).
    inversion Heq; subst. apply in_seq in Hk, Hl. lia.
  - intros Hij. exists i. split; [apply in_seq; lia|].
    apply in_map_iff. exists j. split; [done|]. apply in_seq. lia.
Qed.

Lemma elem_of_tril_indices n i j :
  (i, j) ∈ tril_indices n <-> (j < i < n)%nat.
Proof.
  unfold tril_indices. rewrite list_elem_of_In, in_flat_map. split.
  - intros (k & Hk & Hin). apply in_map_iff in Hin as (l & Heq & Hl).
    inversion Heq; subst. apply in_seq in Hk, Hl. lia.
  - intros Hij. exists i. split; [apply in_seq; lia|].
    apply in_map_iff. exists j. split; [done|]. apply in_seq. lia.
Qed.

Lemma entry_np_eye n i j :
  (i < n)%nat -> (j < n)%nat ->
  entry (np_eye n) i j = Some (if Nat.eqb i j then num_one else num_zero).
Proof.
  intros Hi Hj. unfold entry, np_eye.
  change (@map nat) with (@fmap list _ nat).
  rewrite list_lookup_fmap, lookup_seq_lt by done. simpl.
  rewrite list_lookup_fmap, lookup_seq_lt by done. done.
Qed.

(** Writing at positions off the diagonal leaves the diagonal alone. *)
Lemma assign_indices_diagonal (M M' : matrix) idx vals a :
  Forall (fun ij => fst ij ≠ snd ij) idx ->
  assign_indices M idx vals = inr M' ->
  entry M' a a = entry M a a.
Proof.
  intros Hoff. unfold assign_indices.
  assert (Hzip : forall ivs : list ((nat * nat) * num),
             Forall (fun iv => fst iv ∈ idx) ivs ->
             Forall (fun iv => fst iv ≠ (a, a)) ivs).
  { intros ivs Hivs. eapply Forall_impl; [exact Hivs|].
    intros [[i j] v] Hin Heq. simpl in *.
    injection Heq as -> ->. rewrite Forall_forall in Hoff.
    by apply (Hoff _ Hin). }
  destruct (Nat.eqb (length vals) (length idx)).
  - intros [= <-]. apply write_all_other, Hzip.
    apply Forall_forall. intros [ij v] Hin. simpl.
    by apply elem_of_zip_l in Hin.
  - destruct vals as [|v [|? ?]]; try done.
    intros [= <-]. apply write_all_other, Hzip.
    apply Forall_forall. intros [ij w] Hin. simpl.
    apply list_elem_of_fmap in Hin as (ij' & [= -> ->] & Hin). done.
Qed.

(** The diagonal of [Sigma] is the diagonal of [np.eye]: ones. *)
Lemma build_Sigma_unit_diagonal n corr Sigma :
  build_Sigma n corr = inr Sigma -> unit_diagonal n Sigma.
Proof.
  unfold build_Sigma. intros Hb i Hi.
  destruct (assign_indices (np_eye n) (triu_indices n) corr) as [e|S1] eqn:H1;
    [done|].
  rewrite (assign_indices_diagonal S1 Sigma (tril_indices n) corr i); [| |done].
  - rewrite (assign_indices_diagonal (np_eye n) S1 (triu_indices n) corr i);
      [| |done].
    + rewrite entry_np_eye by done. by rewrite Nat.eqb_refl.
    + apply Forall_forall. intros [a b] Hab%elem_of_triu_indices. simpl. lia.
  - apply Forall_forall. intros [a b] Hab%elem_of_tril_indices. simpl. lia.
Qed.

End Sigma.

Section SigmaSymmetry.

Local Ltac symmetric_by_cases :=
  let i := fresh "i" in
  let j := fresh "j" in
  intros i j;
  destruct i as [|[|[|i]]]; destruct j as [|[|[|j]]]; reflexivity.

Section Small.
Context `{Number}.

(** X4. Up to three inputs the two triangles are enumerated in matching
    orders, and [Sigma] is symmetric. *)
Lemma build_Sigma_symmetric_small n corr Sigma :
  (n <= 3)%nat -> build_Sigma n corr = inr Sigma -> symmetric Sigma.
Proof.
  intros Hn.
  destruct n as [|[|[|[|n]]]]; [| | | |lia];
    destruct corr as [|c1 [|c2 [|c3 [|c4 corr]]]];
    cbv [build_Sigma assign_indices length Nat.eqb triu_indices tril_indices
         flat_map map seq Nat.sub app zip zip_with np_eye write_all
         fold_left set_entry alter list_alter insert list_insert fst snd];
    intros Heq; try discriminate Heq;
    injection Heq as <-; symmetric_by_cases.
Qed.

End Small.

(** C1. With four inputs the matrix built before drawing is not symmetric:
    the third correlation goes to [Sigma[0, 3]] and to [Sigma[2, 1]], the
    fourth to [Sigma[1, 2]] and to [Sigma[3, 0]]. Its diagonal is one. *)
Theorem build_Sigma_four_not_symmetric :
  exists Sigma,
    @build_Sigma exact 4 SamplerExamples.corr4 = inr Sigma
    /\ unit_diagonal 4 Sigma
    /\ entry Sigma 0 3 = Some (3 # 10)%Q
    /\ entry Sigma 3 0 = Some (4 # 10)%Q
    /\ ~ symmetric Sigma.
Proof.
  eexists. split; [reflexivity|]. split; [|split; [reflexivity|split; [reflexivity|]]].
  - by apply (@build_Sigma_unit_diagonal exact 4 SamplerExamples.corr4).
  - intros Hsym. specialize (Hsym 0%nat 3%nat). discriminate Hsym.
Qed.

End SigmaSymmetry.

(** * Properties of the sampler *)

Section SamplerFacts.

Import RandomSampling.
Context `{Collaborators}.

(** ** The latent normal draw *)

Lemma gaussian_mean_ones model x : x ∈ gaussian_mean model -> x = num_one.
Proof.
  unfold gaussian_mean, np_ones. intros Hx.
  by apply list_elem_of_In, repeat_spec in Hx.
Qed.

(** ** Seeding *)

(** C9. Two calls with the same model, the same seed and the same number of
    samples return the same table (or raise the same exception), whatever
    state the generator was in before each call. *)
Theorem eval_monte_carlo_seeded model n_samples (sd : Z) append (s1 s2 : rng) :
  fst (eval_monte_carlo model n_samples (Some sd) append s1)
  = fst (eval_monte_carlo model n_samples (Some sd) append s2).
Proof.
  unfold eval_monte_carlo, sample_inputs, mbind, st_mbind, st_bind, lift, set_seed.
  destruct (check_density model) as [e|d]; [done|].
  destruct (np_random_seed sd) as [e|s']; done.
Qed.

(** X6. A seeded call also leaves the generator in the same state. *)
Lemma eval_monte_carlo_seeded_state model d n_samples (sd : Z) append
    (s0 s1 s2 : rng) :
  check_density model = inr d ->
  np_random_seed sd = inr s0 ->
  snd (eval_monte_carlo model n_samples (Some sd) append s1)
  = snd (eval_monte_carlo model n_samples (Some sd) append s2).
Proof.
  intros Hd Hsd.
  unfold eval_monte_carlo, sample_inputs, mbind, st_mbind, st_bind, lift, set_seed.
  by rewrite Hd, Hsd.
Qed.

End SamplerFacts.

Section LatentMean.

Import RandomSampling.
Context `{!@Collaborators exact}.

(** C2. For two correlated inputs the latent normal vectors are requested
    from NumPy with mean [1, 1] and covariance [[1, 1/2], [1/2, 1]], and
    the standard normal distribution function is applied to each entry;
    the mean is not the zero vector. *)
Theorem draw_samples_mean_is_ones n_samples s :
  draw_samples SamplerExamples.md_corr SamplerExamples.corr_density n_samples s
  = (let (g, s') :=
       np_random_multivariate_normal [1; 1]%Q [[1; 1 # 2]; [1 # 2; 1]]%Q n_samples s in
     (inr (map (map norm_cdf) (tabulate n_samples 2 g)), s'))
  /\ gaussian_mean SamplerExamples.md_corr = [1; 1]%Q
  /\ ~ Forall2 Qeq (gaussian_mean SamplerExamples.md_corr) [0; 0]%Q.
Proof.
  split; [|split; [reflexivity|]].
  - unfold draw_samples, multivariate_normal. simpl.
    unfold mbind, st_mbind, st_bind, lift, build_Sigma. simpl.
    by destruct (np_random_multivariate_normal _ _ _ _).
  - intros Hall. inversion Hall as [|? ? ? ? Hhd _]; subst. discriminate Hhd.
Qed.

End LatentMean.

(** Without a seed the table depends on the state of the generator. *)
Example eval_monte_carlo_unseeded_differs :
  fst (@RandomSampling.eval_monte_carlo exact SamplerExamples.toy
         SamplerExamples.md_unif 1 None true 0%Z)
  <> fst (@RandomSampling.eval_monte_carlo exact SamplerExamples.toy
            SamplerExamples.md_unif 1 None true 1%Z).
Proof. vm_compute. discriminate. Qed.

(** * Marginal inversion *)

Section Marginals.

Import RandomSampling.
Context `{Collaborators}.

Local Ltac exn_cases :=
  unfold mbind, exn_bind, mret, exn_ret, index, getitem in *;
  repeat case_match; simplify_eq/=.

Lemma entry_map_column f ind (samples : matrix) r c :
  entry (map_column f ind samples) r c
  = if decide (c = ind) then f <$> entry samples r c else entry samples r c.
Proof.
  unfold entry, map_column. change (@map (list num)) with (@fmap list _ (list num)).
  rewrite list_lookup_fmap.
  destruct (samples !! r) as [row|]; simpl; case_decide; subst; try done.
  - apply list_lookup_alter_eq.
  - by apply list_lookup_alter_ne.
Qed.


(** One pass of the loop touches its own column only. *)
Lemma convert_column_other d ind (samples out : matrix) r c :
  convert_column d ind samples = inr out -> c ≠ ind ->
  entry out r c = entry samples r c.
Proof.
  unfold convert_column. intros Hc Hne. exn_cases;
    try done; rewrite entry_map_column; by case_decide.
Qed.

Lemma convert_columns_other d inds : forall (samples out : matrix) r c,
  convert_columns d inds samples = inr out -> c ∉ inds ->
  entry out r c = entry samples r c.
Proof.
  induction inds as [|i inds IH]; intros samples out r c; simpl.
  - by intros [= <-].
  - unfold mbind, exn_bind.
    destruct (convert_column d i samples) as [e|s1] eqn:H1; [done|].
    intros Hrest Hnot. apply not_elem_of_cons in Hnot as [Hci Hnot].
    rewrite (IH s1 out r c Hrest Hnot).
    by apply (convert_column_other d i samples s1 r c).
Qed.

(** The uniform family: the affine map of lines 52-56. *)
Lemma convert_column_unif d ind p lower upper (samples : matrix) :
  pdf_factors d !! ind = Some "unif" ->
  pdf_param d !! ind = Some p ->
  p !! "upper" = Some upper -> p !! "lower" = Some lower ->
  convert_column d ind samples
  = inr (map_column (unif_quantile lower upper) ind samples).
Proof.
  intros Hf Hp Hu Hl. unfold convert_column, index, getitem.
  rewrite Hf. simpl. rewrite Hp. simpl. by rewrite Hu, Hl.
Qed.

(** The normal family: the inverse distribution function of lines 58-63. *)
Lemma convert_column_norm d ind p loc scale (samples : matrix) :
  pdf_factors d !! ind = Some "norm" ->
  pdf_param d !! ind = Some p ->
  p !! "loc" = Some loc -> p !! "scale" = Some scale ->
  convert_column d ind samples
  = inr (map_column (fun u => norm_ppf u loc scale) ind samples).
Proof.
  intros Hf Hp Hu Hl. unfold convert_column, index, getitem.
  rewrite Hf. simpl. rewrite Hp. simpl. by rewrite Hu, Hl.
Qed.

(** Any other family: the column is left as drawn, and nothing is looked
    up in the parameters. *)
Lemma convert_column_unknown d ind fac (samples : matrix) :
  pdf_factors d !! ind = Some fac -> fac ≠ "unif" -> fac ≠ "norm" ->
  convert_column d ind samples = inr samples.
Proof.
  intros Hf Hu Hn. unfold convert_column, index. rewrite Hf. simpl.
  apply String.eqb_neq in Hu, Hn. by rewrite Hu, Hn.
Qed.


(** After the whole loop a column of an unknown family holds what was
    drawn. *)
Lemma convert_columns_unknown d fac c inds : forall (samples out : matrix) r,
  pdf_factors d !! c = Some fac -> fac ≠ "unif" -> fac ≠ "norm" ->
  convert_columns d inds samples = inr out ->
  entry out r c = entry samples r c.
Proof.
  induction inds as [|i inds IH]; intros samples out r Hf Hu Hn; simpl.
  - by intros [= <-].
  - unfold mbind, exn_bind.
    destruct (convert_column d i samples) as [e|s1] eqn:H1; [done|].
    intros Hrest. rewrite (IH s1 out r Hf Hu Hn Hrest).
    destruct (decide (c = i)) as [->|Hci].
    + rewrite (convert_column_unknown d i fac samples Hf Hu Hn) in H1.
      by injection H1 as <-.
    + by apply (convert_column_other d i samples s1 r c).
Qed.

End Marginals.

(** * What the sampler hands to the evaluator *)

Section SampledInputs.

Import RandomSampling.
Context `{Collaborators}.

Lemma sample_inputs_inv model n_samples seed s df s' :
  sample_inputs model n_samples seed s = (inr df, s') ->
  exists d s0 raw out,
    check_density model = inr d
    /\ set_seed seed s = (inr tt, s0)
    /\ draw_samples model d n_samples s0 = (inr raw, s')
    /\ convert_marginals model d raw = inr out
    /\ df = {| columns := inputs (domain model); data := out |}.
Proof.
  unfold sample_inputs, mbind, st_mbind, st_bind, lift.
  destruct (check_density model) as [e|d] eqn:Hchk; [done|].
  destruct (set_seed seed s) as [[e|[]] s0] eqn:Hseed; [done|].
  destruct (draw_samples model d n_samples s0) as [[e|raw] s1] eqn:Hdraw; [done|].
  destruct (convert_marginals model d raw) as [e|out] eqn:Hconv; [done|].
  unfold make_inputs. destruct (Nat.eqb _ _); [|discriminate].
  intros [= <- <-]. by exists d, s0, raw, out.
Qed.

Lemma check_density_Some model d d' :
  density model = Some d -> check_density model = inr d' -> d' = d.
Proof.
  unfold check_density. intros ->.
  destruct (negb _); [done|]. by intros [= <-].
Qed.

Lemma eval_monte_carlo_hands_inputs model n_samples seed append s df_inputs s' :
  sample_inputs model n_samples seed s = (inr df_inputs, s') ->
  eval_monte_carlo model n_samples seed append s
  = (eval_df model df_inputs append, s').
Proof.
  intros Hs. unfold eval_monte_carlo, mbind, st_mbind, st_bind. by rewrite Hs.
Qed.

(** A model whose marginals are all uniform, each with its [lower] and
    [upper], is sampled without an exception (for a seed NumPy accepts). *)
Lemma convert_columns_uniform_returns d inds : forall samples : matrix,
  (forall ind, ind ∈ inds ->
     pdf_factors d !! ind = Some "unif"
     /\ exists p lower upper,
          pdf_param d !! ind = Some p
          /\ p !! "lower" = Some lower /\ p !! "upper" = Some upper) ->
  exists out, convert_columns d inds samples = inr out.
Proof.
  induction inds as [|i inds IH]; intros samples Hall; simpl.
  - by exists samples.
  - destruct (Hall i) as (Hf & p & lower & upper & Hp & Hl & Hu);
      [apply list_elem_of_here|].
    rewrite (convert_column_unif d i p lower upper samples Hf Hp Hu Hl).
    apply IH. intros ind Hin. apply Hall. by apply list_elem_of_further.
Qed.

Lemma sample_inputs_uniform_returns model d n_samples seed s :
  density model = Some d ->
  pdf_corr d = None ->
  length (pdf_factors d) = length (pdf_param d) ->
  length (inputs (domain model)) = n_in model ->
  (forall ind, (ind < n_in model)%nat ->
     pdf_factors d !! ind = Some "unif"
     /\ exists p lower upper,
          pdf_param d !! ind = Some p
          /\ p !! "lower" = Some lower /\ p !! "upper" = Some upper) ->
  (forall sd, seed = Some sd -> exists s0, np_random_seed sd = inr s0) ->
  exists df s', sample_inputs model n_samples seed s = (inr df, s').
Proof.
  intros Hd Hcorr Hlen Hcols Hunif Hseed.
  unfold sample_inputs, mbind, st_mbind, st_bind, lift, check_density.
  rewrite Hd, Hlen, Nat.eqb_refl. simpl.
  assert (Hs : exists s0, set_seed seed s = (inr tt, s0)).
  { destruct seed as [sd|]; simpl; [|by exists s].
    destruct (Hseed sd eq_refl) as [s0 ->]. by exists s0. }
  destruct Hs as [s0 ->].
  unfold draw_samples. rewrite Hcorr. unfold random.
  destruct (np_random_random n_samples (n_in model) s0) as [u s1].
  destruct (convert_columns_uniform_returns d (seq 0 (n_in model))
              (tabulate n_samples (n_in model) u)) as [out Hout].
  { intros ind Hin%elem_of_seq. apply Hunif. lia. }
  unfold convert_marginals. rewrite Hout.
  unfold make_inputs. rewrite Hcols, Nat.eqb_refl. by eexists _, _.
Qed.

(** C10. For a marginal whose family is neither "unif" nor "norm" the loop
    body returns the samples as they are, whatever the parameters hold, and
    the table handed to the evaluator has in that column what was drawn. *)
Theorem unknown_family_column_unchanged model d ind fac :
  density model = Some d ->
  pdf_factors d !! ind = Some fac -> fac ≠ "unif" -> fac ≠ "norm" ->
  (forall samples : matrix, convert_column d ind samples = inr samples)
  /\ (forall n_samples seed append s df s',
        sample_inputs model n_samples seed s = (inr df, s') ->
        (exists raw s0,
            draw_samples model d n_samples s0 = (inr raw, s')
            /\ forall r, entry (data df) r ind = entry raw r ind)
        /\ eval_monte_carlo model n_samples seed append s
           = (eval_df model df append, s')).
Proof.
  intros Hd Hf Hu Hn. split.
  - intros samples. by apply convert_column_unknown with fac.
  - intros n_samples seed append s df s' Hrun. split.
    + apply sample_inputs_inv in Hrun
        as (d' & s0 & raw & out & Hchk & _ & Hdraw & Hconv & ->).
      apply (check_density_Some _ _ _ Hd) in Hchk as ->.
      exists raw, s0. split; [done|]. intros r. simpl.
      by apply (convert_columns_unknown d fac ind (seq 0 (n_in model))).
    + by apply eval_monte_carlo_hands_inputs.
Qed.

End SampledInputs.

(** * Uniform samples within their bounds, in exact arithmetic *)

Section UniformBounds.

Import RandomSampling.



End UniformBounds.



Section Binary64Runs.

Import PrimFloat.
#[local] Set Warnings "-inexact-float".


End Binary64Runs.

Lemma unknown_family_column_unchanged_witness :
  @RandomSampling.convert_column exact SamplerExamples.toy SamplerExamples.beta_density 1
    [[1 # 4; 2 # 4]]%Q
  = inr [[1 # 4; 2 # 4]]%Q.
Proof.
  apply (proj1 (@unknown_family_column_unchanged exact SamplerExamples.toy
                  SamplerExamples.md_beta SamplerExamples.beta_density 1 "beta"
                  eq_refl eq_refl ltac:(discriminate) ltac:(discriminate))).
Defined.

(** * Properties of the tables *)

Section TableFacts.

Import EvalOpt.
Context `{Float}.

Lemma getcols_columns (df : DataFrame) names : forall df' : DataFrame,
  getcols df names = inr df' -> columns df' = names.
Proof.
  induction names as [|n names IH]; intros df'; simpl.
  - by intros [= <-].
  - destruct (column df n) as [vs|]; [|done].
    unfold mbind, exn_bind.
    destruct (getcols df names) as [e|rest]; [done|].
    intros [= <-]. simpl. f_equal. by apply IH.
Qed.

Lemma getcols_column (df : DataFrame) names : forall (df' : DataFrame) v,
  getcols df names = inr df' -> v ∈ names ->
  exists vs, column df v = Some vs /\ column df' v = Some vs.
Proof.
  induction names as [|n names IH]; intros df' v; simpl.
  - intros _ Hin. by apply elem_of_nil in Hin.
  - destruct (column df n) as [vs|] eqn:Hn; [|done].
    unfold mbind, exn_bind.
    destruct (getcols df names) as [e|rest] eqn:Hrest; [done|].
    intros [= <-] Hin. simpl.
    destruct (String.eqb n v) eqn:Hnv.
    + apply String.eqb_eq in Hnv as <-. by exists vs.
    + apply String.eqb_neq in Hnv.
      apply elem_of_cons in Hin as [->|Hin]; [done|]. by apply IH.
Qed.

Lemma column_map_values (g : list V -> list V) (df : DataFrame) v :
  column (map (fun c => (fst c, g (snd c))) df) v = g <$> column df v.
Proof.
  induction df as [|[n vs] df IH]; simpl; [done|].
  by destruct (String.eqb n v).
Qed.

Lemma column_app_l (a b : DataFrame) v vs :
  column a v = Some vs -> column (a ++ b) v = Some vs.
Proof.
  induction a as [|[n ws] a IH]; simpl; [done|].
  by destruct (String.eqb n v).
Qed.

Lemma dict_set_keys (d : list (string * V)) k v name :
  name ∈ map fst (dict_set d k v) -> name = k \/ name ∈ map fst d.
Proof.
  induction d as [|[k' v'] d IH]; simpl.
  - intros Hin. apply elem_of_cons in Hin as [->|Hin]; [by left|by right].
  - destruct (String.eqb k' k) eqn:Hk; simpl; intros Hin.
    + apply String.eqb_eq in Hk as ->. by right.
    + apply elem_of_cons in Hin as [->|Hin]; [right; by left|].
      destruct (IH Hin) as [->|Hd]; [by left|right; by right].
Qed.

(** The keys of [dict(zip(keys, vals))] are among [keys]. *)
Lemma dict_zip_keys keys (vals : list V) name :
  name ∈ map fst (dict_zip keys vals) -> name ∈ keys.
Proof.
  unfold dict_zip.
  assert (Hgen : forall (kvs : list (string * V)) d,
             name ∈ map fst (fold_left
               (fun d kv => dict_set d (fst kv) (snd kv)) kvs d) ->
             name ∈ map fst kvs \/ name ∈ map fst d).
  { induction kvs as [|[k v] kvs IH]; intros d; simpl; [by right|].
    intros Hin. destruct (IH _ Hin) as [Hk|Hd].
    - left. by right.
    - destruct (dict_set_keys d k v name Hd) as [->|Hd']; [left; by left|by right]. }
  intros Hin. destruct (Hgen _ _ Hin) as [Hk|Hd].
  - apply list_elem_of_fmap in Hk as ([k v] & -> & Hkv).
    by apply elem_of_zip_l in Hkv.
  - by apply elem_of_nil in Hd.
Qed.

End TableFacts.

(** * The effect monad of eval_opt.py *)

Section Effects.

Import EvalOpt.
Context `{Float}.

Lemma bind_ret {A B} (a : A) (f : A -> M B) : mret a ≫= f = f a.
Proof. unfold mbind, M_bind, mret, M_ret. by destruct (f a). Qed.

Lemma bind_raise {A B} (e : exn) (f : A -> M B) : raise e ≫= f = raise e.
Proof. reflexivity. Qed.

Lemma bind_lift {A B} (r : exn + A) (f : A -> M B) :
  lift r ≫= f = match r with inl e => raise e | inr a => f a end.
Proof. destruct r as [e|a]; [done|]. apply bind_ret. Qed.

Lemma bind_tell {B} (ev : event) (f : unit -> M B) :
  tell ev ≫= f = (ev :: fst (f tt), snd (f tt)).
Proof. unfold mbind, M_bind, tell. by destruct (f tt). Qed.

Lemma bind_tell_ret {A B} (ev : event) (a : A) (f : A -> M B) :
  (tell ev ≫= fun _ => mret a) ≫= f = (ev :: fst (f a), snd (f a)).
Proof. unfold mbind, M_bind, tell, mret, M_ret. by destruct (f a). Qed.

Lemma bind_raise_if {B} (b : bool) (e : exn) (f : unit -> M B) :
  raise_if b e ≫= f = if b then raise e else f tt.
Proof. destruct b; [done|]. apply bind_ret. Qed.

Lemma outcome_bind {A B} (m : M A) (f : A -> M B) :
  outcome (m ≫= f)
  = match outcome m with inl e => inl e | inr a => outcome (f a) end.
Proof.
  destruct m as [log [e|a]]; [done|]. unfold mbind, M_bind, outcome. simpl.
  by destruct (f a).
Qed.

Lemma log_bind {A B} (m : M A) (f : A -> M B) :
  fst (m ≫= f)
  = fst m ++ match outcome m with inl _ => [] | inr a => fst (f a) end.
Proof.
  destruct m as [log [e|a]]; unfold mbind, M_bind, outcome; simpl.
  - by rewrite app_nil_r.
  - by destruct (f a).
Qed.

Lemma solver_calls_bind {A B} (m : M A) (f : A -> M B) :
  solver_calls (m ≫= f)
  = (solver_calls m
     + match outcome m with inl _ => 0 | inr a => solver_calls (f a) end)%nat.
Proof.
  unfold solver_calls. rewrite log_bind, filter_app, length_app.
  by destruct (outcome m).
Qed.

Lemma bind_inr_inv {A B} (m : M A) (f : A -> M B) b :
  outcome (m ≫= f) = inr b ->
  exists a, outcome m = inr a /\ outcome (f a) = inr b.
Proof. rewrite outcome_bind. destruct (outcome m) as [e|a]; [done|]. eauto. Qed.

Lemma refused_bind {A B} (m : M A) (f : A -> M B) :
  solver_calls m = 0%nat ->
  (forall a, outcome m = inr a -> refused (f a)) ->
  refused (m ≫= f).
Proof.
  intros Hm Hf. unfold refused. rewrite outcome_bind, solver_calls_bind, Hm.
  destruct (outcome m) as [e|a]; [done|]. by apply Hf.
Qed.

End Effects.

(** * Properties of eval_min *)

Section MinFacts.

Import EvalOpt.
Context `{Float} `{!Collaborators}.

Lemma is_empty_true (s : gset string) : is_empty s = true <-> s = ∅.
Proof. unfold is_empty. apply bool_decide_eq_true. Qed.

Lemma is_empty_false (s : gset string) : is_empty s = false <-> s ≠ ∅.
Proof. unfold is_empty. apply bool_decide_eq_false. Qed.

Lemma elem_of_out_diff names cols name :
  name ∈ out_diff names cols <-> name ∈ names /\ name ∉ cols.
Proof. unfold out_diff. set_solver. Qed.

Lemma names_missing_empty model names :
  names_missing model names = ∅
  <-> forall name, name ∈ opt_names names -> name ∈ out model.
Proof.
  unfold names_missing. split.
  - intros Hempty name Hin. destruct (decide (name ∈ out model)); [done|].
    assert (name ∈ out_diff (opt_names names) (out model)) as Hd
      by by apply elem_of_out_diff.
    rewrite Hempty in Hd. by apply not_elem_of_empty in Hd.
  - intros Hall. apply set_eq. intros name. rewrite elem_of_out_diff.
    split; [|intros Hin; by apply not_elem_of_empty in Hin]. intros [Hin Hnot].
    by apply Hall in Hin.
Qed.

(** [nrestart] is not read. *)
Lemma eval_min_ignores_nrestart model out_min out_geq out_eq method tol
    (n1 n2 : Z) maxiter df_start :
  eval_min model out_min out_geq out_eq method tol n1 maxiter df_start
  = eval_min model out_min out_geq out_eq method tol n2 maxiter df_start.
Proof. reflexivity. Qed.

Lemma check_outputs_ok msg model names :
  names_missing model names = ∅ ->
  check_outputs msg model names = mret tt.
Proof.
  unfold check_outputs, names_missing, opt_names, raise_if.
  destruct names as [l|]; [|done]. simpl.
  intros Hempty%is_empty_true. by rewrite Hempty.
Qed.

Lemma check_outputs_missing msg model names :
  names_missing model names ≠ ∅ ->
  check_outputs msg model names
  = raise (ValueError msg (NameSet (names_missing model names))).
Proof.
  unfold check_outputs, names_missing, opt_names, raise_if.
  destruct names as [l|]; simpl.
  - intros Hne%is_empty_false. by rewrite Hne.
  - intros Hne. exfalso. apply Hne. unfold out_diff.
    by rewrite list_to_set_nil, difference_disjoint_L by set_solver.
Qed.

Lemma check_out_min_ok model (o : string) :
  o ∈ out model ->
  (if bool_decide (o ∈ out model) then mret o
   else raise (ValueError "model must contain out_min" NoDetail))
  = (mret o : M string).
Proof. intros Ho. by rewrite bool_decide_eq_true_2. Qed.

(** C7, as the code has it. [eval_min] raises a [ValueError], having called
    nothing, when the model has a random variable, when [out_min] is not an
    output of the model, and when [out_geq] or [out_eq] holds a name that
    is not an output, the message of each list naming the names missing
    from that list. When all of this holds and the start table ([df_start],
    or the nominal table when it is omitted) has a column for every
    variable of the model, the solver is called once: on the objective of
    [out_min], from the start table restricted to the variables, with the
    constraints of [out_geq] and [out_eq]; the call raises what the solver
    raises, and returns the table made of the solver's point. *)
Theorem eval_min_checks model out_min out_geq out_eq method tol nrestart
    maxiter df_start :
  let run := eval_min model out_min out_geq out_eq method tol nrestart
               maxiter df_start in
  ((0 < n_var_rand model)%nat ->
     run = ([], inl (ValueError "model must have no random variables" NoDetail)))
  /\ (n_var_rand model = 0%nat ->
      (forall o, out_min = Some o -> o ∉ out model) ->
      run = ([], inl (ValueError "model must contain out_min" NoDetail)))
  /\ (n_var_rand model = 0%nat ->
      (exists o, out_min = Some o /\ o ∈ out model) ->
      names_missing model out_geq ≠ ∅ ->
      run = ([], inl (ValueError "model must contain each out_geq; missing"
                        (NameSet (names_missing model out_geq)))))
  /\ (n_var_rand model = 0%nat ->
      (exists o, out_min = Some o /\ o ∈ out model) ->
      names_missing model out_geq = ∅ ->
      names_missing model out_eq ≠ ∅ ->
      run = ([], inl (ValueError "model must contain each out_eq; missing"
                        (NameSet (names_missing model out_eq)))))
  /\ (~ min_preconditions model out_min out_geq out_eq ->
      (exists msg d, run = ([], inl (ValueError msg d)))
      /\ solver_calls run = 0%nat)
  /\ (min_preconditions model out_min out_geq out_eq ->
      forall start x0,
        match df_start with
        | None => eval_nominal model
        | Some d => inr d
        end = inr start ->
        getcols start (var model) = inr x0 ->
        exists o,
          out_min = Some o
          /\ run
              = ([Minimize (map snd x0)],
                 res ← minimize_constrained (make_fun model o) x0 method tol
                         maxiter
                         (map (fun g => {| ctype := "ineq";
                                           cfun := make_fun model g |})
                              (opt_names out_geq)
                          ++ map (fun g => {| ctype := "eq";
                                              cfun := make_fun model g |})
                               (opt_names out_eq));
                 mret (df_make (dict_zip (var model) (res_x res))))
          /\ solver_calls run = 1%nat).
Proof.
  intros run.
  assert (Hrand : (0 < n_var_rand model)%nat ->
            run = ([], inl (ValueError "model must have no random variables"
                              NoDetail))).
  { intros Hpos%Nat.ltb_lt. subst run. unfold eval_min.
    by rewrite bind_raise_if, Hpos. }
  assert (Hmin : n_var_rand model = 0%nat ->
            (forall o, out_min = Some o -> o ∉ out model) ->
            run = ([], inl (ValueError "model must contain out_min" NoDetail))).
  { intros Hzero Hbad. subst run. unfold eval_min.
    rewrite bind_raise_if, Hzero. cbn [Nat.ltb Nat.leb].
    destruct out_min as [o|]; [|done].
    by rewrite bool_decide_eq_false_2 by by apply Hbad. }
  assert (Hgeq : n_var_rand model = 0%nat ->
            (exists o, out_min = Some o /\ o ∈ out model) ->
            names_missing model out_geq ≠ ∅ ->
            run = ([], inl (ValueError "model must contain each out_geq; missing"
                              (NameSet (names_missing model out_geq))))).
  { intros Hzero (o & -> & Ho) Hne. subst run. unfold eval_min.
    rewrite bind_raise_if, Hzero. cbn [Nat.ltb Nat.leb].
    rewrite check_out_min_ok, bind_ret by done.
    rewrite (check_outputs_missing _ model out_geq) by done. reflexivity. }
  assert (Heq : n_var_rand model = 0%nat ->
            (exists o, out_min = Some o /\ o ∈ out model) ->
            names_missing model out_geq = ∅ ->
            names_missing model out_eq ≠ ∅ ->
            run = ([], inl (ValueError "model must contain each out_eq; missing"
                              (NameSet (names_missing model out_eq))))).
  { intros Hzero (o & -> & Ho) Hg Hne. subst run. unfold eval_min.
    rewrite bind_raise_if, Hzero. cbn [Nat.ltb Nat.leb].
    rewrite check_out_min_ok, bind_ret by done.
    rewrite (check_outputs_ok _ model out_geq), bind_ret by done.
    rewrite (check_outputs_missing _ model out_eq) by done. reflexivity. }
  split; [done|]. split; [done|]. split; [done|]. split; [done|]. split.
  - intros Hnot.
    assert (Hcase : exists msg d, run = ([], inl (ValueError msg d))).
    { destruct (n_var_rand model) as [|k] eqn:Hzero;
        [|eexists _, _; apply Hrand; lia].
      destruct out_min as [o|];
        [|eexists _, _; by apply Hmin].
      destruct (decide (o ∈ out model)) as [Ho|Ho];
        [|eexists _, _; apply Hmin; [done|]; by intros ? [= <-]].
      destruct (decide (names_missing model out_geq = ∅)) as [Hg|Hg];
        [|eexists _, _; apply Hgeq; eauto].
      destruct (decide (names_missing model out_eq = ∅)) as [He|He];
        [|eexists _, _; apply Heq; eauto].
      exfalso. apply Hnot. repeat split; eauto; by apply names_missing_empty. }
    split; [done|]. destruct Hcase as (msg & d & ->). reflexivity.
  - intros (Hzero & (o & -> & Ho) & Hg & He) start x0 Hstart Hx0.
    apply names_missing_empty in Hg, He.
    subst run. unfold eval_min.
    rewrite bind_raise_if, Hzero. cbn [Nat.ltb Nat.leb].
    rewrite check_out_min_ok, bind_ret by done.
    rewrite (check_outputs_ok _ model out_geq), bind_ret by done.
    rewrite (check_outputs_ok _ model out_eq), bind_ret by done.
    assert (Hst : match df_start with
                  | Some d => mret d
                  | None => lift (eval_nominal model)
                  end = (mret start : M DataFrame)).
    { destruct df_start as [d|].
      - by injection Hstart as ->.
      - by rewrite Hstart. }
    rewrite Hst, bind_ret, bind_lift, Hx0, bind_tell, bind_lift.
    exists o. split; [done|].
    by destruct (minimize_constrained _ _ _ _ _ _) as [e|res].
Qed.

End MinFacts.

(** * Properties of eval_nls *)

Section NlsFacts.

Import EvalOpt.
Context `{Float} (order : SetOrder) `{!Collaborators}.

(** ** Sets turned into lists *)

Lemma elem_of_set_list (s : gset string) v : v ∈ set_list order s <-> v ∈ s.
Proof. by rewrite (set_list_perm order s), elem_of_elements. Qed.

Lemma NoDup_set_list (s : gset string) : NoDup (set_list order s).
Proof. rewrite (set_list_perm order s). apply NoDup_elements. Qed.

(** ** The variables held fixed *)

Lemma elem_of_var_fix_set model var_fix v :
  v ∈ var_fix_set model var_fix
  <-> v ∈ opt_names var_fix
      \/ (v ∈ var_det model
          /\ feqb (get_width (domain model) v) (of_int 0) = true).
Proof.
  unfold var_fix_set.
  assert (Hgen : forall (l : list string) (acc : gset string),
    v ∈ fold_left
          (fun acc v =>
             let wid := get_width (domain model) v in
             if feqb wid (of_int 0) then acc ∪ {[v]} else acc) l acc
    <-> v ∈ acc
        \/ (v ∈ l /\ feqb (get_width (domain model) v) (of_int 0) = true)).
  { induction l as [|w l IH]; intros acc; simpl.
    - split; [by left|]. intros [?|[Hin _]]; [done|].
      by apply elem_of_nil in Hin.
    - rewrite IH. destruct (feqb (get_width (domain model) w) (of_int 0)) eqn:Hw.
      + rewrite elem_of_union, elem_of_singleton, elem_of_cons.
        split; [intros [[?| ->]|[? ?]]|intros [?|[[ -> |?] ?]]]; auto.
      + rewrite elem_of_cons.
        split; [intros [?|[? ?]]|intros [?|[[ -> |?] Hv]]]; auto.
        by rewrite Hw in Hv. }
  rewrite Hgen. destruct var_fix as [l|]; simpl.
  - by rewrite elem_of_list_to_set.
  - rewrite elem_of_empty. split; [intros [[]|?]; by right|].
    intros [Hin|?]; [by apply elem_of_nil in Hin|by right].
Qed.

(** ** The variables fitted *)

Lemma elem_of_var_fit_det model fit v :
  v ∈ var_fit_det order model fit <-> v ∈ var_det model /\ v ∈ fit.
Proof.
  unfold var_fit_det.
  by rewrite elem_of_set_list, elem_of_intersection, elem_of_list_to_set.
Qed.

Lemma elem_of_var_fit_rand model fit v :
  v ∈ var_fit_rand order model fit <-> v ∈ var_rand model /\ v ∈ fit.
Proof.
  unfold var_fit_rand.
  by rewrite elem_of_set_list, elem_of_intersection, elem_of_list_to_set.
Qed.

Lemma elem_of_nls_var_fit model df_data var_fix v :
  v ∈ nls_var_fit order model df_data var_fix ->
  v ∈ var model /\ (v ∉ var_fix_set model var_fix) /\ (v ∉ columns df_data).
Proof.
  unfold nls_var_fit, var_fit_list, var_fit_set, var_feat_set.
  rewrite elem_of_app, elem_of_var_fit_det, elem_of_var_fit_rand.
  rewrite elem_of_difference, elem_of_union, elem_of_intersection,
    !elem_of_list_to_set.
  intros [[_ [? Hnot]]|[_ [? Hnot]]]; split; try done; split; intros ?;
    apply Hnot; auto.
Qed.

(** ** The check of [out] *)

Lemma eval_nls_unfold_out model df out_arg var_fix append tol maxiter nrestart :
  exists rest : M DataFrame,
    eval_nls order model (Some df) out_arg var_fix append tol maxiter nrestart
    = (out_notice model out_arg
         ++ (if is_empty (out_diff (default (out model) out_arg) (columns df))
             then Print "... eval_nls setting var_fix = "
                    (set_list order (var_fix_set model var_fix)) :: fst rest
             else []),
       if is_empty (out_diff (default (out model) out_arg) (columns df))
       then snd rest
       else inl (ValueError "out must be subset of df_data.columns"
                   (NameSet (out_diff (default (out model) out_arg) (columns df))))).
Proof.
  unfold eval_nls.
  destruct out_arg as [o|]; simpl default; unfold out_notice; cbv beta iota;
    eexists.
  - rewrite !bind_ret, bind_raise_if.
    destruct (is_empty (out_diff o (columns df))); simpl negb; cbv iota.
    + rewrite bind_tell. cbn [fst snd app]. reflexivity.
    + reflexivity.
  - rewrite bind_tell_ret, bind_ret, bind_raise_if.
    destruct (is_empty (out_diff (out model) (columns df))); simpl negb; cbv iota.
    + rewrite bind_tell. cbn [fst snd app]. reflexivity.
    + reflexivity.
Qed.

(** C6. [eval_nls] stops at the check of [out], with the [ValueError] that
    carries the set of names of [out] (or of [model.out] when [out] is
    omitted) that are not columns of [df_data], exactly when there is such
    a name; nothing but the notice of the default has happened by then,
    and the solver has not been called. *)
Theorem eval_nls_out_subset model df out_arg var_fix append tol maxiter nrestart :
  let out_names := default (out model) out_arg in
  let missing := out_diff out_names (columns df) in
  let run :=
    eval_nls order model (Some df) out_arg var_fix append tol maxiter nrestart in
  (forall name, name ∈ missing <-> name ∈ out_names /\ name ∉ columns df)
  /\ ((exists name, name ∈ out_names /\ name ∉ columns df)
      <-> run = (out_notice model out_arg,
                 inl (ValueError "out must be subset of df_data.columns"
                        (NameSet missing))))
  /\ ((exists name, name ∈ out_names /\ name ∉ columns df) ->
      solver_calls run = 0%nat).
Proof.
  intros out_names missing run.
  assert (Hmem : forall name,
             name ∈ missing <-> name ∈ out_names /\ name ∉ columns df).
  { intros name. unfold missing, out_diff.
    by rewrite elem_of_difference, !elem_of_list_to_set. }
  assert (Hex : (exists name, name ∈ out_names /\ name ∉ columns df)
                <-> is_empty missing = false).
  { unfold is_empty. rewrite bool_decide_eq_false. split.
    - intros (name & Hname%Hmem) Hempty. rewrite Hempty in Hname.
      by apply not_elem_of_empty in Hname.
    - intros Hne. apply set_choose_L in Hne as [name Hname].
      exists name. by apply Hmem. }
  destruct (eval_nls_unfold_out model df out_arg var_fix append tol maxiter
              nrestart) as [rest Hrun].
  fold out_names missing run in Hrun.
  split; [done|]. rewrite Hex. destruct (is_empty missing) eqn:Hempty.
  - split; [|done]. split; [done|]. rewrite Hrun. intros [= Hlog _]. exfalso.
    apply (f_equal length) in Hlog. rewrite length_app in Hlog.
    simpl in Hlog. lia.
  - rewrite Hrun, app_nil_r. split; [done|]. intros _.
    unfold solver_calls, out_notice. by destruct out_arg.
Qed.

(** ** Multi-start *)

Local Ltac silent :=
  first [ reflexivity
        | match goal with
          | |- solver_calls (match ?x with _ => _ end) = _ => by destruct x
          | |- solver_calls (raise_if ?b _) = _ => by destruct b
          end ].

Local Ltac refuse_step :=
  cbv zeta; apply refused_bind; [silent | intros ? _].

(** X15. With [nrestart > 1] the call raises, and the solver is not called. *)
Lemma eval_nls_multistart_refused model df_data out_arg var_fix append tol
    maxiter nrestart :
  (1 < nrestart)%Z ->
  refused (eval_nls order model df_data out_arg var_fix append tol maxiter
             nrestart).
Proof.
  intros Hn%Z.ltb_lt. unfold eval_nls. do 10 refuse_step.
  rewrite bind_raise_if, Hn. by split.
Qed.

(** X16. Where a single start succeeds, [nrestart > 1] raises
    [NotImplementedError]. *)
Lemma eval_nls_multistart_not_implemented model df_data out_arg var_fix append
    tol maxiter nrestart (res : DataFrame) :
  outcome (eval_nls order model df_data out_arg var_fix append tol maxiter 1)
  = inr res ->
  (1 < nrestart)%Z ->
  outcome (eval_nls order model df_data out_arg var_fix append tol maxiter
             nrestart)
  = inl NotImplementedError.
Proof.
  intros Hok Hn%Z.ltb_lt. unfold eval_nls in *.
  do 10 (cbv zeta in *; rewrite outcome_bind in Hok |- *;
         match type of Hok with
         | context [match outcome ?m with _ => _ end] =>
             destruct (outcome m) as [?|?]; [discriminate Hok|]
         end).
  cbv zeta. by rewrite bind_raise_if, Hn.
Qed.

(** ** The table returned *)

(** Without [append] the columns of the table are the final [var_fit], in
    its order. *)
Lemma eval_nls_columns model df out_arg var_fix tol maxiter nrestart
    (res : DataFrame) :
  outcome (eval_nls order model (Some df) out_arg var_fix false tol maxiter
             nrestart) = inr res ->
  columns res = nls_var_fit order model df var_fix.
Proof.
  unfold eval_nls. intros Hres.
  apply bind_inr_inv in Hres as (out_names & _ & Hres).
  rewrite bind_ret in Hres.
  do 10 (cbv zeta in Hres; apply bind_inr_inv in Hres as (? & _ & Hres)).
  cbv beta iota in Hres. unfold lift, outcome in Hres. simpl in Hres.
  by apply getcols_columns in Hres.
Qed.

(** ** The row held fixed during the fit *)

(** In the row that the objective hands to the evaluator, a variable of
    [var_fix] that is not fitted has the value of the first row of the
    nominal table. *)
Lemma fixed_row_nominal (df_nom : DataFrame) (var_fix : gset string) var_fit
    (x : list V) (row : DataFrame) v :
  v ∈ var_fix ->
  fixed_row order df_nom var_fix var_fit x = inr row ->
  exists vs, column df_nom v = Some vs /\ column row v = Some (take 1 vs).
Proof.
  intros Hv. unfold fixed_row, mbind, exn_bind, mret, exn_ret.
  destruct (getcols df_nom (set_list order var_fix)) as [e|nom_fix] eqn:Hget;
    [done|].
  unfold iloc_row. destruct (Nat.ltb 0 (nrows df_nom)); [|done].
  intros [= <-].
  destruct (getcols_column df_nom _ nom_fix v Hget) as (vs & Hnom & Hfix).
  { by apply elem_of_set_list. }
  exists vs. split; [done|]. unfold concat_columns. apply column_app_l.
  rewrite (column_map_values (fun vs => take 1 (drop 0 vs))), Hfix. done.
Qed.

(** ** The order of [var_fit] *)

(** C4, as the code has it. The final [var_fit] is the deterministic fit
    variables followed by the random fit variables, each of them once;
    the table returned without [append] has its columns in that order.
    Within each group the order is the iteration order of a set: under
    another iteration order each group holds the same names, permuted. *)
Theorem var_fit_deterministic_first model df var_fix :
  let fit :=
    var_fit_set model (var_fix_set model var_fix) (var_feat_set model df) in
  nls_var_fit order model df var_fix
  = var_fit_det order model fit ++ var_fit_rand order model fit
  /\ (forall v, v ∈ var_fit_det order model fit <-> v ∈ var_det model /\ v ∈ fit)
  /\ (forall v, v ∈ var_fit_rand order model fit <-> v ∈ var_rand model /\ v ∈ fit)
  /\ NoDup (var_fit_det order model fit)
  /\ NoDup (var_fit_rand order model fit)
  /\ (forall out_arg tol maxiter nrestart (res : DataFrame),
        outcome (eval_nls order model (Some df) out_arg var_fix false tol
                   maxiter nrestart) = inr res ->
        columns res = nls_var_fit order model df var_fix)
  /\ (forall order' : SetOrder,
        var_fit_det order model fit ≡ₚ var_fit_det order' model fit
        /\ var_fit_rand order model fit ≡ₚ var_fit_rand order' model fit).
Proof.
  intros fit. split; [done|].
  split; [apply elem_of_var_fit_det|].
  split; [apply elem_of_var_fit_rand|].
  split; [apply NoDup_set_list|]. split; [apply NoDup_set_list|]. split.
  - intros out_arg tol maxiter nrestart res. apply eval_nls_columns.
  - intros order'. unfold var_fit_det, var_fit_rand.
    by rewrite !(set_list_perm order), !(set_list_perm order').
Qed.

End NlsFacts.

(** * The calls on concrete inputs *)

Section Runs.

Import EvalOpt Examples.

(** C4, as stated, fails: with the same model, data and arguments, two
    iteration orders of Python's sets give two orders of [var_fit], and
    two tables whose columns are in different orders. *)
Lemma var_fit_order_not_reproducible :
  nls_var_fit order_a md_fit df_obs None = ["c"; "b"; "s"; "r"]
  /\ nls_var_fit order_b md_fit df_obs None = ["b"; "c"; "r"; "s"]
  /\ outcome (eval_nls order_a md_fit (Some df_obs) None None false
                (1 # 1000)%Q 25 1)
     <> outcome (eval_nls order_b md_fit (Some df_obs) None None false
                   (1 # 1000)%Q 25 1).
Proof.
  split; [by vm_compute|]. split; [by vm_compute|].
  intros Heq.
  assert (Hcols : forall r1 r2 : exn + DataFrame, r1 = r2 ->
             match r1, r2 with
             | inr d1, inr d2 => columns d1 = columns d2
             | _, _ => True
             end).
  { intros r1 r2 ->. by destruct r2. }
  apply Hcols in Heq. vm_compute in Heq. discriminate Heq.
Qed.

(** C3. [eval_min] called with [nrestart = 2] does not raise
    [NotImplementedError]: it calls the solver once, from the nominal
    start, and returns what it returns with [nrestart = 1]. *)
Theorem eval_min_multistart_runs_single_start :
  let run := eval_min md_det (Some "c") (Some ["g1"; "g2"]) None "SLSQP"
               (1 # 1000000)%Q 2 50 None in
  outcome run = inr [("x", [1%Q]); ("y", [1%Q])]
  /\ outcome run <> inl NotImplementedError
  /\ solver_calls run = 1%nat
  /\ run = eval_min md_det (Some "c") (Some ["g1"; "g2"]) None "SLSQP"
             (1 # 1000000)%Q 1 50 None.
Proof. by vm_compute. Qed.

Lemma eval_min_checks_witness :
  exists o,
    Some "c" = Some o
    /\ eval_min md_det (Some "c") (Some ["g1"]) None "SLSQP" (1 # 1000000)%Q 1 50
         None
       = ([Minimize [[1%Q]; [1%Q]]],
          res ← minimize_constrained (make_fun md_det o) (nominal_row md_det)
                  "SLSQP" (1 # 1000000)%Q 50
                  [{| ctype := "ineq"; cfun := make_fun md_det "g1" |}];
          mret (df_make (dict_zip ["x"; "y"] (res_x res))))
    /\ solver_calls (eval_min md_det (Some "c") (Some ["g1"]) None "SLSQP"
                       (1 # 1000000)%Q 1 50 None) = 1%nat.
Proof.
  refine ((proj2 (proj2 (proj2 (proj2 (proj2
             (eval_min_checks md_det (Some "c") (Some ["g1"]) None "SLSQP"
                (1 # 1000000)%Q 1 50 None))))))
            _ (nominal_row md_det) (nominal_row md_det) eq_refl eq_refl).
  split; [reflexivity|]. split.
  - exists "c". split; [reflexivity|]. apply list_elem_of_here.
  - split; intros name Hin.
    + apply list_elem_of_singleton in Hin as ->.
      apply list_elem_of_further, list_elem_of_here.
    + by apply elem_of_nil in Hin.
Defined.

(** C7, as stated, fails: the model has no random variable and [out_min]
    and [out_geq] name outputs of the model, but [df_start] has no column
    for the variable [y]; the call stops at [df_start[model.var]] with a
    [KeyError] and the solver is not called. *)
Lemma eval_min_checks_not_sufficient :
  min_preconditions md_det (Some "c") (Some ["g1"]) None
  /\ eval_min md_det (Some "c") (Some ["g1"]) None "SLSQP" (1 # 1000000)%Q 1 50
       (Some [("x", [1%Q])])
     = ([], inl (KeyError "y"))
  /\ solver_calls (eval_min md_det (Some "c") (Some ["g1"]) None "SLSQP"
                     (1 # 1000000)%Q 1 50 (Some [("x", [1%Q])])) = 0%nat.
Proof.
  split; [|split; reflexivity].
  split; [reflexivity|]. split.
  - exists "c". split; [reflexivity|]. apply list_elem_of_here.
  - split; intros name Hin.
    + apply list_elem_of_singleton in Hin as ->.
      apply list_elem_of_further, list_elem_of_here.
    + by apply elem_of_nil in Hin.
Qed.

End Runs.

(** * The correlation matrix, entry by entry *)

Section SigmaEntries.
Context `{Number}.

Lemma entry_set_entry (M : matrix) i j v a b :
  entry (set_entry M i j v) a b
  = if decide ((i, j) = (a, b)) then (fun _ => v) <$> entry M a b
    else entry M a b.
Proof.
  case_decide as Heq.
  - injection Heq as -> ->. unfold entry, set_entry.
    rewrite list_lookup_alter_eq. destruct (M !! a) as [row|]; simpl; [|done].
    destruct (row !! b) as [x|] eqn:Hb; simpl.
    + apply list_lookup_insert_eq. by apply lookup_lt_Some in Hb.
    + apply lookup_ge_None. rewrite length_insert. by apply lookup_ge_None in Hb.
  - by apply entry_set_entry_other.
Qed.

Lemma entry_set_entry_is_Some (M : matrix) i j v a b :
  is_Some (entry (set_entry M i j v) a b) <-> is_Some (entry M a b).
Proof.
  rewrite entry_set_entry. case_decide; [|done]. by rewrite fmap_is_Some.
Qed.

Lemma entry_write_all_is_Some (ivs : list ((nat * nat) * num)) : forall (M : matrix) a b,
  is_Some (entry (write_all M ivs) a b) <-> is_Some (entry M a b).
Proof.
  induction ivs as [|[[i j] v] ivs IH]; intros M a b; [done|].
  unfold write_all in *. simpl. rewrite IH. apply entry_set_entry_is_Some.
Qed.

(** Writing at pairwise distinct positions: each position ends up with its
    own value. *)
Lemma entry_write_all_lookup (ivs : list ((nat * nat) * num)) :
  forall (M : matrix) k i j v,
    NoDup (map fst ivs) ->
    ivs !! k = Some ((i, j), v) ->
    is_Some (entry M i j) ->
    entry (write_all M ivs) i j = Some v.
Proof.
  induction ivs as [|[[a b] w] ivs IH]; intros M k i j v Hnd Hk Hin; [done|].
  simpl in Hnd. apply NoDup_cons in Hnd as [Hfresh Hnd].
  change (write_all M (((a, b), w) :: ivs))
    with (write_all (set_entry M a b w) ivs).
  destruct k as [|k]; simpl in Hk.
  - injection Hk as -> -> ->. rewrite write_all_other.
    + rewrite entry_set_entry. rewrite decide_True by done.
      destruct Hin as [x ->]. done.
    + apply Forall_forall. intros [ij x] Hx Heq. simpl in Heq. subst ij.
      apply Hfresh. apply list_elem_of_fmap. by exists ((i, j), x).
  - apply (IH _ k); [done|done|]. by apply entry_set_entry_is_Some.
Qed.

(** Writing one value at several positions. *)
Lemma entry_write_all_const (ivs : list ((nat * nat) * num)) v :
  forall (M : matrix) i j,
    Forall (fun iv => snd iv = v) ivs ->
    is_Some (entry M i j) ->
    (i, j) ∈ map fst ivs \/ entry M i j = Some v ->
    entry (write_all M ivs) i j = Some v.
Proof.
  induction ivs as [|[[a b] w] ivs IH]; intros M i j Hall Hin Hcase.
  - destruct Hcase as [Hnil|?]; [by apply elem_of_nil in Hnil|done].
  - apply Forall_cons in Hall as [Hw Hall]. simpl in Hw. subst w.
    change (write_all M (((a, b), v) :: ivs))
      with (write_all (set_entry M a b v) ivs).
    apply IH; [done|by apply entry_set_entry_is_Some|].
    rewrite entry_set_entry. case_decide as Heq.
    + right. destruct Hin as [x ->]. done.
    + destruct Hcase as [Hhd|?]; [|by right]. simpl in Hhd.
      apply elem_of_cons in Hhd as [Hhd|?]; [|by left]. congruence.
Qed.

Lemma flat_map_bind {A B} (f : A -> list B) (l : list A) : flat_map f l = l ≫= f.
Proof. induction l as [|x l IH]; simpl; [done|]. by rewrite IH. Qed.

Lemma NoDup_triu_indices n : NoDup (triu_indices n).
Proof.
  unfold triu_indices. rewrite flat_map_bind. apply NoDup_bind.
  - intros i1 i2 [a b] _ _ H1 H2.
    apply list_elem_of_In, in_map_iff in H1 as (? & [= <- <-] & _).
    by apply list_elem_of_In, in_map_iff in H2 as (? & [= <- <-] & _).
  - intros i _. apply NoDup_fmap_2; [by intros ?? [= ->]|apply NoDup_seq].
  - apply NoDup_seq.
Qed.

Lemma NoDup_tril_indices n : NoDup (tril_indices n).
Proof.
  unfold tril_indices. rewrite flat_map_bind. apply NoDup_bind.
  - intros i1 i2 [a b] _ _ H1 H2.
    apply list_elem_of_In, in_map_iff in H1 as (? & [= <- <-] & _).
    by apply list_elem_of_In, in_map_iff in H2 as (? & [= <- <-] & _).
  - intros i _. apply NoDup_fmap_2; [by intros ?? [= ->]|apply NoDup_seq].
  - apply NoDup_seq.
Qed.

Lemma length_pairs_from (m : nat) : forall k,
  (2 * length (flat_map (fun i => map (fun j => (i, j)) (seq (S i) (k + m - S i)))
                 (seq k m)) = m * (m - 1))%nat.
Proof.
  induction m as [|m IH]; intros k; [done|].
  simpl flat_map. rewrite length_app, length_map, length_seq.
  replace (k + S m)%nat with (S k + m)%nat by lia.
  specialize (IH (S k)). simpl in *. nia.
Qed.

Lemma length_triu_indices n : (2 * length (triu_indices n) = n * (n - 1))%nat.
Proof. apply (length_pairs_from n 0). Qed.

Lemma length_tril_indices n : (2 * length (tril_indices n) = n * (n - 1))%nat.
Proof.
  unfold tril_indices. induction n as [|n IH]; [done|].
  rewrite seq_S, flat_map_app, length_app. simpl.
  rewrite app_nil_r, length_map, length_seq. nia.
Qed.

Lemma entry_np_eye_is_Some n i j :
  is_Some (entry (np_eye n) i j) <-> (i < n)%nat /\ (j < n)%nat.
Proof.
  split.
  - unfold entry, np_eye. change (@map nat) with (@fmap list _ nat).
    rewrite list_lookup_fmap.
    destruct (seq 0 n !! i) as [a|] eqn:Hi; simpl; [|by intros [? ?]].
    apply lookup_seq in Hi as [-> Hi]. rewrite list_lookup_fmap.
    destruct (seq 0 n !! j) as [b|] eqn:Hj; simpl; [|by intros [? ?]].
    by apply lookup_seq in Hj as [-> Hj].
  - intros [Hi Hj]. by rewrite entry_np_eye.
Qed.

Lemma assign_indices_is_Some (M M' : matrix) idx vals a b :
  assign_indices M idx vals = inr M' ->
  is_Some (entry M' a b) <-> is_Some (entry M a b).
Proof.
  unfold assign_indices. destruct (Nat.eqb _ _).
  - intros [= <-]. apply entry_write_all_is_Some.
  - destruct vals as [|v [|? ?]]; try done.
    intros [= <-]. apply entry_write_all_is_Some.
Qed.

End SigmaEntries.

Section SigmaSpec.
Context `{Number}.

Lemma assign_indices_zip (M : matrix) idx vals :
  length vals = length idx ->
  assign_indices M idx vals = inr (write_all M (zip idx vals)).
Proof. intros Hlen. unfold assign_indices. by rewrite Hlen, Nat.eqb_refl. Qed.

Lemma assign_indices_values (M : matrix) idx v :
  exists ivs,
    assign_indices M idx [v] = inr (write_all M ivs)
    /\ map fst ivs = idx /\ Forall (fun iv => snd iv = v) ivs.
Proof.
  unfold assign_indices. destruct (Nat.eqb _ _) eqn:Hlen.
  - exists (zip idx [v]). split; [done|]. apply Nat.eqb_eq in Hlen.
    destruct idx as [|ij [|? ?]]; try done. repeat constructor.
  - exists (map (fun ij => (ij, v)) idx). split; [done|]. split.
    + rewrite map_map. simpl. apply map_id.
    + apply Forall_forall. intros iv Hin.
      by apply list_elem_of_In, in_map_iff in Hin as (? & <- & _).
Qed.

Lemma build_Sigma_shape n corr Sigma :
  build_Sigma n corr = inr Sigma ->
  forall i j, is_Some (entry Sigma i j) <-> (i < n)%nat /\ (j < n)%nat.
Proof.
  intros HS i j. unfold build_Sigma in HS.
  destruct (assign_indices (np_eye n) (triu_indices n) corr) as [e|S1] eqn:H1;
    [done|].
  rewrite (assign_indices_is_Some S1 Sigma _ _ i j HS).
  rewrite (assign_indices_is_Some (np_eye n) S1 _ _ i j H1).
  apply entry_np_eye_is_Some.
Qed.

(** X1. [Sigma] is built exactly when the correlations are as many as the
    positions above the diagonal, [n (n - 1) / 2], or a single value;
    anything else is NumPy's shape-mismatch [ValueError]. A matrix that is
    built has shape [n x n]. *)
Theorem build_Sigma_returns_iff n corr :
  ((exists Sigma, build_Sigma n corr = inr Sigma)
   <-> (2 * length corr = n * (n - 1))%nat \/ length corr = 1%nat)
  /\ (forall Sigma, build_Sigma n corr = inr Sigma ->
      forall i j, is_Some (entry Sigma i j) <-> (i < n)%nat /\ (j < n)%nat)
  /\ (~ ((2 * length corr = n * (n - 1))%nat \/ length corr = 1%nat) ->
      build_Sigma n corr = inl (ValueError "shape mismatch" NoDetail)).
Proof.
  pose proof (length_triu_indices n) as Hu.
  pose proof (length_tril_indices n) as Hl.
  assert (Hcases : (2 * length corr = n * (n - 1))%nat \/ length corr = 1%nat
                   \/ ~ ((2 * length corr = n * (n - 1))%nat \/ length corr = 1%nat))
    by lia.
  assert (Hgood : (2 * length corr = n * (n - 1))%nat \/ length corr = 1%nat ->
                  exists Sigma, build_Sigma n corr = inr Sigma).
  { intros [Hlen|Hone].
    - unfold build_Sigma. rewrite assign_indices_zip by lia.
      rewrite assign_indices_zip by lia. by eexists.
    - destruct corr as [|v [|? ?]]; try done. unfold build_Sigma.
      destruct (assign_indices_values (np_eye n) (triu_indices n) v)
        as (ivs & -> & _).
      destruct (assign_indices_values (write_all (np_eye n) ivs)
                  (tril_indices n) v) as (ivs' & -> & _).
      by eexists. }
  assert (Hbad : ~ ((2 * length corr = n * (n - 1))%nat \/ length corr = 1%nat) ->
                 build_Sigma n corr = inl (ValueError "shape mismatch" NoDetail)).
  { intros Hnot. unfold build_Sigma, assign_indices.
    destruct (Nat.eqb (length corr) (length (triu_indices n))) eqn:Heq.
    - apply Nat.eqb_eq in Heq. lia.
    - destruct corr as [|v [|? ?]]; try done. simpl in Hnot. lia. }
  split; [|split; [|done]].
  - split; [|done]. intros [Sigma HS].
    destruct Hcases as [?|[?|Hnot]]; [by left|by right|].
    rewrite (Hbad Hnot) in HS. done.
  - intros Sigma HS. by apply build_Sigma_shape with corr.
Qed.

(** X2. With one correlation per position above the diagonal, the [k]-th
    correlation is the entry at the [k]-th position above the diagonal in
    row-major order, and also the entry at the [k]-th position below the
    diagonal in row-major order. *)
Theorem build_Sigma_entries n corr Sigma :
  (2 * length corr = n * (n - 1))%nat ->
  build_Sigma n corr = inr Sigma ->
  (forall k i j, triu_indices n !! k = Some (i, j) -> entry Sigma i j = corr !! k)
  /\ (forall k i j, tril_indices n !! k = Some (i, j) -> entry Sigma i j = corr !! k).
Proof.
  intros Hlen. pose proof (length_triu_indices n) as Hu.
  pose proof (length_tril_indices n) as Hl.
  unfold build_Sigma. rewrite assign_indices_zip by lia.
  rewrite assign_indices_zip by lia. intros [= <-].
  assert (Hval : forall (idx : list (nat * nat)) k ij,
             length corr = length idx -> idx !! k = Some ij ->
             exists v, corr !! k = Some v /\ zip idx corr !! k = Some (ij, v)).
  { intros idx k ij Hlenk Hk.
    destruct (corr !! k) as [v|] eqn:Hv.
    - exists v. split; [done|]. apply lookup_zip_with_Some. by exists ij, v.
    - apply lookup_ge_None in Hv. apply lookup_lt_Some in Hk. lia. }
  split; intros k i j Hk.
  - destruct (Hval (triu_indices n) k (i, j) ltac:(lia) Hk) as (v & -> & Hzip).
    assert (Hij : (i < j < n)%nat).
    { apply elem_of_triu_indices. by apply list_elem_of_lookup_2 in Hk. }
    rewrite write_all_other.
    + apply (entry_write_all_lookup _ _ k); [|done|].
      * rewrite fst_zip by lia. apply NoDup_triu_indices.
      * apply entry_np_eye_is_Some. lia.
    + apply Forall_forall. intros [[a b] w] Hin%elem_of_zip_l Heq.
      simpl in Heq. injection Heq as -> ->.
      apply elem_of_tril_indices in Hin. lia.
  - destruct (Hval (tril_indices n) k (i, j) ltac:(lia) Hk) as (v & -> & Hzip).
    assert (Hij : (j < i < n)%nat).
    { apply elem_of_tril_indices. by apply list_elem_of_lookup_2 in Hk. }
    apply (entry_write_all_lookup _ _ k); [|done|].
    + rewrite fst_zip by lia. apply NoDup_tril_indices.
    + apply entry_write_all_is_Some, entry_np_eye_is_Some. lia.
Qed.

(** X3. A single correlation is written to every position off the diagonal:
    the matrix is then symmetric with unit diagonal, for every number of
    inputs. *)
Theorem build_Sigma_scalar n v :
  exists Sigma,
    build_Sigma n [v] = inr Sigma
    /\ symmetric Sigma
    /\ unit_diagonal n Sigma
    /\ forall i j, (i < n)%nat -> (j < n)%nat -> i ≠ j -> entry Sigma i j = Some v.
Proof.
  destruct (assign_indices_values (np_eye n) (triu_indices n) v)
    as (ivs & H1 & Hidx & Hv).
  destruct (assign_indices_values (write_all (np_eye n) ivs) (tril_indices n) v)
    as (ivs' & H2 & Hidx' & Hv').
  exists (write_all (write_all (np_eye n) ivs) ivs').
  assert (HS : build_Sigma n [v] = inr (write_all (write_all (np_eye n) ivs) ivs')).
  { unfold build_Sigma. by rewrite H1, H2. }
  assert (Hoff : forall i j, (i < n)%nat -> (j < n)%nat -> i ≠ j ->
             entry (write_all (write_all (np_eye n) ivs) ivs') i j = Some v).
  { intros i j Hi Hj Hne.
    assert (Hin : is_Some (entry (np_eye n) i j)) by by apply entry_np_eye_is_Some.
    destruct (decide (i < j)%nat) as [Hlt|Hge].
    - apply entry_write_all_const; [done|by apply entry_write_all_is_Some|].
      right. apply entry_write_all_const; [done|done|].
      left. rewrite Hidx. apply elem_of_triu_indices. lia.
    - apply entry_write_all_const; [done|by apply entry_write_all_is_Some|].
      left. rewrite Hidx'. apply elem_of_tril_indices. lia. }
  split; [done|]. split; [|split; [|done]].
  - intros i j.
    destruct (decide (i = j)) as [->|Hne]; [done|].
    destruct (decide ((i < n)%nat /\ (j < n)%nat)) as [[Hi Hj]|Hout].
    + rewrite !Hoff by done. done.
    + pose proof (build_Sigma_shape n [v] _ HS) as Hshape.
      destruct (entry _ i j) as [x|] eqn:Hx.
      { exfalso. apply Hout. apply Hshape. by rewrite Hx. }
      destruct (entry _ j i) as [y|] eqn:Hy; [|done].
      exfalso. apply Hout. apply and_comm, Hshape. by rewrite Hy.
  - by apply (build_Sigma_unit_diagonal n [v]).
Qed.

End SigmaSpec.

Lemma build_Sigma_entries_witness :
  entry [[1; 1 # 10; 2 # 10; 3 # 10]; [1 # 10; 1; 4 # 10; 5 # 10];
         [2 # 10; 3 # 10; 1; 6 # 10]; [4 # 10; 5 # 10; 6 # 10; 1]]%Q 2 1
  = SamplerExamples.corr4 !! 2%nat.
Proof.
  apply (proj2 (@build_Sigma_entries exact 4 SamplerExamples.corr4 _ eq_refl eq_refl)
           2%nat).
  reflexivity.
Defined.

Lemma build_Sigma_symmetric_small_witness :
  symmetric [[1; 1 # 2; 1 # 3]; [1 # 2; 1; 1 # 4]; [1 # 3; 1 # 4; 1]]%Q.
Proof.
  apply (@build_Sigma_symmetric_small exact 3 [1 # 2; 1 # 3; 1 # 4]%Q);
    [lia|reflexivity].
Defined.

(** * More on the sampler *)

Section SamplerEdges.

Import RandomSampling.
Context `{Collaborators}.

(** X5. A model without a density, or whose density has factors and
    parameters of different lengths, is refused with a [ValueError] before
    the seed is applied or anything is drawn: the generator is left in the
    state it was in. *)
Theorem eval_monte_carlo_invalid_density model n_samples seed append (s : rng) :
  (density model = None ->
   eval_monte_carlo model n_samples seed append s
   = (inl (ValueError "Model density must be factorable!" NoDetail), s))
  /\ (forall d, density model = Some d ->
      length (pdf_factors d) ≠ length (pdf_param d) ->
      eval_monte_carlo model n_samples seed append s
      = (inl (ValueError
           "model.density.pdf_factors not same length as model.density.pdf_param!"
           NoDetail), s)).
Proof.
  unfold eval_monte_carlo, sample_inputs, mbind, st_mbind, st_bind, lift,
    check_density.
  split.
  - by intros ->.
  - intros d -> Hlen. apply Nat.eqb_neq in Hlen. by rewrite Hlen.
Qed.

(** ** The shape of what is drawn *)

Lemma has_shape_tabulate rows cols f : has_shape rows cols (tabulate rows cols f).
Proof.
  unfold has_shape, tabulate. rewrite length_map, length_seq. split; [done|].
  apply Forall_forall. intros row Hrow.
  apply list_elem_of_In, in_map_iff in Hrow as (i & <- & _).
  by rewrite length_map, length_seq.
Qed.

Lemma has_shape_map rows cols (g : list num -> list num) (M : matrix) :
  (forall row, length (g row) = length row) ->
  has_shape rows cols M -> has_shape rows cols (map g M).
Proof.
  intros Hg [Hrows Hcols]. unfold has_shape. rewrite length_map. split; [done|].
  apply Forall_forall. intros row Hrow.
  apply list_elem_of_In, in_map_iff in Hrow as (row' & <- & Hin%list_elem_of_In).
  rewrite Hg. rewrite Forall_forall in Hcols. by apply Hcols.
Qed.

Lemma convert_column_shape rows cols d ind (samples out : matrix) :
  convert_column d ind samples = inr out ->
  has_shape rows cols samples -> has_shape rows cols out.
Proof.
  unfold convert_column, mbind, exn_bind, mret, exn_ret, index, getitem.
  intros Hc Hs. repeat case_match; simplify_eq/=; try done;
    apply has_shape_map; try done; intros row; apply length_alter.
Qed.

Lemma convert_columns_shape rows cols d inds : forall samples out : matrix,
  convert_columns d inds samples = inr out ->
  has_shape rows cols samples -> has_shape rows cols out.
Proof.
  induction inds as [|i inds IH]; intros samples out; simpl.
  - by intros [= <-].
  - unfold mbind, exn_bind.
    destruct (convert_column d i samples) as [e|s1] eqn:H1; [done|].
    intros Hrest Hs. apply (IH s1 out Hrest).
    by apply (convert_column_shape rows cols d i samples).
Qed.

(** X7. The table handed to the evaluator has [n_samples] rows of [n_in]
    entries each, under the [n_in] input names of the domain; with
    [n_samples = 0] it has no row. *)
Theorem sample_inputs_shape model n_samples seed (s s' : rng) df :
  sample_inputs model n_samples seed s = (inr df, s') ->
  has_shape n_samples (n_in model) (data df)
  /\ columns df = inputs (domain model)
  /\ length (columns df) = n_in model.
Proof.
  unfold sample_inputs, mbind, st_mbind, st_bind, lift.
  destruct (check_density model) as [e|d]; [done|].
  destruct (set_seed seed s) as [[e|[]] s0]; [done|].
  destruct (draw_samples model d n_samples s0) as [[e|raw] s1] eqn:Hdraw; [done|].
  destruct (convert_marginals model d raw) as [e|out] eqn:Hconv; [done|].
  unfold make_inputs. destruct (Nat.eqb _ _) eqn:Hlen; [|discriminate].
  intros [= <- <-]. simpl. apply Nat.eqb_eq in Hlen. split; [|done].
  apply (convert_columns_shape _ _ d (seq 0 (n_in model)) raw out Hconv).
  unfold draw_samples in Hdraw. destruct (pdf_corr d) as [corr|].
  - unfold mbind, st_mbind, st_bind, lift, multivariate_normal in Hdraw.
    destruct (build_Sigma (n_in model) corr) as [e|Sigma]; [done|].
    destruct (np_random_multivariate_normal _ _ _ _) as [g s2].
    injection Hdraw as <- <-. apply has_shape_map.
    + intros row. apply length_map.
    + unfold gaussian_mean, np_ones. rewrite repeat_length.
      apply has_shape_tabulate.
  - unfold random in Hdraw. destruct (np_random_random _ _ _) as [u s2].
    injection Hdraw as <- <-. apply has_shape_tabulate.
Qed.

(** ** Fewer factors than inputs *)

Lemma convert_columns_missing_factor d inds : forall (samples : matrix) ind,
  ind ∈ inds -> pdf_factors d !! ind = None ->
  raised (convert_columns d inds samples).
Proof.
  induction inds as [|i inds IH]; intros samples ind Hin Hnone.
  - by apply elem_of_nil in Hin.
  - simpl. unfold mbind, exn_bind.
    destruct (convert_column d i samples) as [e|s1] eqn:H1; [done|].
    apply elem_of_cons in Hin as [->|Hin]; [|by apply (IH s1 ind)].
    unfold convert_column, index in H1. by rewrite Hnone in H1.
Qed.

(** X8. The validity check compares the number of factors with the number
    of parameters, not with [n_in]: a density with fewer factors than
    [n_in] passes it, and the call then raises, at the latest with the
    [IndexError] of the first missing factor. It never returns a table. *)
Theorem eval_monte_carlo_short_factors model d n_samples seed append (s : rng) :
  density model = Some d ->
  (length (pdf_factors d) < n_in model)%nat ->
  raised (fst (eval_monte_carlo model n_samples seed append s)).
Proof.
  intros Hd Hshort.
  unfold eval_monte_carlo, sample_inputs, mbind, st_mbind, st_bind, lift.
  destruct (check_density model) as [e|d'] eqn:Hchk; [done|].
  apply (check_density_Some _ _ _ Hd) in Hchk as ->.
  destruct (set_seed seed s) as [[e|[]] s0]; [done|].
  destruct (draw_samples model d n_samples s0) as [[e|raw] s1]; [done|].
  pose proof (convert_columns_missing_factor d (seq 0 (n_in model)) raw
                (length (pdf_factors d))) as Hraise.
  unfold convert_marginals.
  destruct (convert_columns d (seq 0 (n_in model)) raw) as [e|out]; [done|].
  exfalso. apply Hraise.
  - apply elem_of_seq. lia.
  - by apply lookup_ge_None.
Qed.

(** ** The copula path *)

Lemma entry_tabulate_lt rows cols f r c :
  (r < rows)%nat -> (c < cols)%nat -> entry (tabulate rows cols f) r c = Some (f r c).
Proof.
  intros Hr Hc. unfold entry, tabulate. change (@map nat) with (@fmap list _ nat).
  rewrite list_lookup_fmap, lookup_seq_lt by done. simpl.
  by rewrite list_lookup_fmap, lookup_seq_lt.
Qed.

Lemma entry_map_map (h : num -> num) (M : matrix) r c :
  entry (map (map h) M) r c = h <$> entry M r c.
Proof.
  unfold entry. change (@map (list num)) with (@fmap list _ (list num)).
  rewrite list_lookup_fmap. destruct (M !! r) as [row|]; simpl; [|done].
  change (@map num) with (@fmap list _ num). apply list_lookup_fmap.
Qed.

(** After the whole loop, a column whose pass is [map_column f] holds the
    image under [f] of what was drawn. *)
Lemma convert_columns_entry d (f : num -> num) c inds : forall samples out : matrix,
  NoDup inds -> c ∈ inds ->
  (forall X : matrix, convert_column d c X = inr (map_column f c X)) ->
  convert_columns d inds samples = inr out ->
  forall r, entry out r c = f <$> entry samples r c.
Proof.
  induction inds as [|i inds IH]; intros samples out Hnd Hin Hf; simpl.
  - by apply elem_of_nil in Hin.
  - unfold mbind, exn_bind.
    destruct (convert_column d i samples) as [e|s1] eqn:H1; [done|].
    intros Hrest r. apply NoDup_cons in Hnd as [Hi Hnd].
    destruct (decide (c = i)) as [->|Hci].
    + rewrite Hf in H1. injection H1 as <-.
      rewrite (convert_columns_other d inds _ out r i Hrest Hi).
      rewrite entry_map_column. by case_decide.
    + apply elem_of_cons in Hin as [?|Hin]; [done|].
      rewrite (IH s1 out Hnd Hin Hf Hrest r).
      by rewrite (convert_column_other d i samples s1 r c H1 Hci).
Qed.

(** X10. With a correlation structure, an entry of a normal-family column of
    the table handed to the evaluator is [norm.ppf], at the marginal's [loc]
    and [scale], of [norm.cdf] of the latent normal draw, which NumPy makes
    with mean [np.ones(n_in)] and covariance [Sigma]. *)
Theorem copula_normal_entry model d corr n_samples seed (s s' : rng) df :
  density model = Some d ->
  pdf_corr d = Some corr ->
  sample_inputs model n_samples seed s = (inr df, s') ->
  exists Sigma s0 g,
    build_Sigma (n_in model) corr = inr Sigma
    /\ np_random_multivariate_normal (np_ones (n_in model)) Sigma n_samples s0
       = (g, s')
    /\ forall r c p loc scale,
         (r < n_samples)%nat -> (c < n_in model)%nat ->
         pdf_factors d !! c = Some "norm" ->
         pdf_param d !! c = Some p ->
         p !! "loc" = Some loc -> p !! "scale" = Some scale ->
         entry (data df) r c = Some (norm_ppf (norm_cdf (g r c)) loc scale).
Proof.
  intros Hd Hcorr Hrun.
  apply sample_inputs_inv in Hrun
    as (d' & s0 & raw & out & Hchk & _ & Hdraw & Hconv & ->).
  apply (check_density_Some _ _ _ Hd) in Hchk as ->.
  unfold draw_samples in Hdraw. rewrite Hcorr in Hdraw.
  unfold mbind, st_mbind, st_bind, lift, multivariate_normal in Hdraw.
  destruct (build_Sigma (n_in model) corr) as [e|Sigma]; [done|].
  unfold gaussian_mean in Hdraw.
  destruct (np_random_multivariate_normal (np_ones (n_in model)) Sigma
              n_samples s0) as [g s1] eqn:Hg.
  injection Hdraw as <- <-. exists Sigma, s0, g. split; [done|]. split; [done|].
  intros r c p loc scale Hr Hc Hf Hp Hloc Hscale. simpl.
  rewrite (convert_columns_entry d (fun u => norm_ppf u loc scale) c
             (seq 0 (n_in model))
             (map (map norm_cdf)
                (tabulate n_samples (length (np_ones (n_in model))) g)) out);
    [| | | |exact Hconv].
  - rewrite entry_map_map. unfold np_ones. rewrite repeat_length.
    by rewrite entry_tabulate_lt.
  - apply NoDup_seq.
  - apply elem_of_seq. lia.
  - intros X. by apply convert_column_norm with p.
Qed.

End SamplerEdges.

Lemma sample_inputs_shape_witness :
  has_shape 2 2 [[10 # 4; 0 # 4]; [12 # 4; 2 # 4]]%Q
  /\ ["x0"; "x1"] = RandomSampling.inputs (RandomSampling.domain SamplerExamples.md_unif)
  /\ length ["x0"; "x1"] = 2%nat.
Proof.
  apply (@sample_inputs_shape exact SamplerExamples.toy SamplerExamples.md_unif 2
           (Some 5%Z) 0%Z 6%Z
           (@RandomSampling.Build_DataFrame exact ["x0"; "x1"]
              [[10 # 4; 0 # 4]; [12 # 4; 2 # 4]]%Q)).
  reflexivity.
Defined.

Lemma eval_monte_carlo_short_factors_witness :
  raised (fst (@RandomSampling.eval_monte_carlo exact SamplerExamples.toy
                 MoreExamples.md_short 1 None true 0%Z)).
Proof.
  apply (@eval_monte_carlo_short_factors exact SamplerExamples.toy MoreExamples.md_short
           MoreExamples.short_density 1 None true 0%Z eq_refl).
  simpl. lia.
Defined.

Lemma copula_normal_entry_witness :
  exists Sigma s0 g,
    build_Sigma 2 [1 # 2]%Q = inr Sigma
    /\ @RandomSampling.np_random_multivariate_normal exact SamplerExamples.toy
         (np_ones 2) Sigma 1 s0 = (g, 6%Z)
    /\ forall r c p loc scale,
         (r < 1)%nat -> (c < 2)%nat ->
         RandomSampling.pdf_factors SamplerExamples.corr_density !! c = Some "norm" ->
         RandomSampling.pdf_param SamplerExamples.corr_density !! c = Some p ->
         p !! "loc" = Some loc -> p !! "scale" = Some scale ->
         entry [[6; 6]]%Q r c
         = Some (@RandomSampling.norm_ppf exact SamplerExamples.toy
                   (@RandomSampling.norm_cdf exact SamplerExamples.toy (g r c)) loc scale).
Proof.
  apply (@copula_normal_entry exact SamplerExamples.toy SamplerExamples.md_corr
           SamplerExamples.corr_density [1 # 2]%Q 1 (Some 5%Z) 0%Z 6%Z
           (@RandomSampling.Build_DataFrame exact ["x0"; "x1"]
              [[6; 6]]%Q)
           eq_refl eq_refl eq_refl).
Defined.

Lemma eval_monte_carlo_seeded_state_witness :
  snd (@RandomSampling.eval_monte_carlo exact SamplerExamples.toy
         SamplerExamples.md_unif 2 (Some 5%Z) true 0%Z)
  = snd (@RandomSampling.eval_monte_carlo exact SamplerExamples.toy
           SamplerExamples.md_unif 2 (Some 5%Z) true 1%Z).
Proof.
  apply (@eval_monte_carlo_seeded_state exact SamplerExamples.toy SamplerExamples.md_unif
           SamplerExamples.unif_density 2 5%Z true 5%Z 0%Z 1%Z eq_refl eq_refl).
Defined.

(** * More on eval_nls *)

Section NlsEdges.

Import EvalOpt.
Context `{Float} (order : SetOrder) `{!Collaborators}.

Lemma stops_with_bind {A B} (m : M A) (f : A -> M B) a e :
  outcome m = inr a -> solver_calls m = 0%nat ->
  stops_with (f a) e -> stops_with (m ≫= f) e.
Proof.
  intros Hout Hcalls [He Hc]. unfold stops_with.
  by rewrite outcome_bind, solver_calls_bind, Hout, Hcalls.
Qed.

Lemma stops_with_raise_if {B} b e (f : unit -> M B) :
  b = true -> stops_with (raise_if b e ≫= f) e.
Proof. intros ->. rewrite bind_raise_if. by split. Qed.

Lemma out_stage_outcome model out_arg :
  outcome (match out_arg with
           | None =>
               tell (Print "... eval_nls setting out = " (out model));;
               mret (out model)
           | Some o => mret o
           end) = inr (default (out model) out_arg).
Proof. by destruct out_arg. Qed.

Lemma out_stage_calls model out_arg :
  solver_calls (match out_arg with
                | None =>
                    tell (Print "... eval_nls setting out = " (out model));;
                    mret (out model)
                | Some o => mret o
                end) = 0%nat.
Proof. by destruct out_arg. Qed.

Lemma raise_if_outcome b e : b = false -> outcome (raise_if b e) = inr tt.
Proof. by intros ->. Qed.

Lemma raise_if_calls b e : solver_calls (raise_if b e) = 0%nat.
Proof. by destruct b. Qed.

Local Ltac pass_out :=
  eapply stops_with_bind; [apply out_stage_outcome|apply out_stage_calls|];
  eapply stops_with_bind; [reflexivity|reflexivity|]; cbv zeta.

Local Ltac pass_check Hb :=
  eapply stops_with_bind;
    [apply raise_if_outcome; rewrite Hb; reflexivity|apply raise_if_calls|];
  cbv zeta.

Local Ltac pass_tell :=
  eapply stops_with_bind; [reflexivity|reflexivity|]; cbv zeta.

Lemma var_fit_set_empty model df var_fix :
  var_fit_set model (var_fix_set model var_fix) (var_feat_set model df) = ∅
  <-> forall v, v ∈ var model -> v ∈ var_fix_set model var_fix \/ v ∈ columns df.
Proof.
  unfold var_fit_set, var_feat_set. split.
  - intros Hempty v Hv.
    destruct (decide (v ∈ var_fix_set model var_fix)) as [?|Hfix]; [by left|].
    destruct (decide (v ∈ columns df)) as [?|Hcol]; [by right|].
    exfalso. apply (not_elem_of_empty (C := gset string) v). rewrite <- Hempty.
    rewrite elem_of_difference, elem_of_union, elem_of_intersection,
      !elem_of_list_to_set.
    split; [done|]. intros [?|[_ ?]]; done.
  - intros Hall. apply set_eq. intros v.
    rewrite elem_of_difference, elem_of_union, elem_of_intersection,
      !elem_of_list_to_set.
    split; [|intros Hin; by apply not_elem_of_empty in Hin].
    intros [Hv Hnot]. exfalso. apply Hnot.
    destruct (Hall v Hv) as [?|?]; [by left|by right].
Qed.

(** X12. When the check of [out] passes and every variable of the model is
    fixed (by the caller or by a width of zero) or a column of the data,
    [eval_nls] raises the [ValueError] "No var selected for fitting!" and
    the solver is not called. *)
Theorem eval_nls_nothing_to_fit model df out_arg var_fix append tol maxiter
    nrestart :
  out_diff (default (out model) out_arg) (columns df) = ∅ ->
  (forall v, v ∈ var model -> v ∈ var_fix_set model var_fix \/ v ∈ columns df) ->
  stops_with
    (eval_nls order model (Some df) out_arg var_fix append tol maxiter nrestart)
    (ValueError "No var selected for fitting!" NoDetail).
Proof.
  intros Hout%is_empty_true Hfit%var_fit_set_empty%is_empty_true.
  unfold eval_nls. pass_out. pass_check Hout. pass_tell. pass_tell.
  by apply stops_with_raise_if.
Qed.

Lemma elem_of_var_prob model fit_det v :
  v ∈ var_prob model fit_det
  <-> isfinite (get_nominal (domain model) v) = false /\ v ∈ fit_det.
Proof.
  unfold var_prob.
  apply (list_elem_of_filter
           (fun v => isfinite (get_nominal (domain model) v) = false)).
Qed.

(** X13. When the check of [out] passes and some deterministic variable
    that is to be fitted has a nominal value that is not finite, [eval_nls]
    raises the [ValueError] "all variables to be fitted must finite nominal
    value", formatted with the list of exactly the deterministic fit
    variables whose nominal value is not finite; the solver is not
    called. *)
Theorem eval_nls_nonfinite_nominal model df out_arg var_fix append tol maxiter
    nrestart v :
  out_diff (default (out model) out_arg) (columns df) = ∅ ->
  v ∈ var_det model -> v ∈ var model ->
  v ∉ var_fix_set model var_fix -> v ∉ columns df ->
  isfinite (get_nominal (domain model) v) = false ->
  let fit :=
    var_fit_set model (var_fix_set model var_fix) (var_feat_set model df) in
  let prob := var_prob model (var_fit_det order model fit) in
  stops_with
    (eval_nls order model (Some df) out_arg var_fix append tol maxiter nrestart)
    (ValueError "all variables to be fitted must finite nominal value"
       (Names prob))
  /\ v ∈ prob
  /\ forall w, w ∈ prob
       <-> w ∈ var_det model /\ w ∈ fit
           /\ isfinite (get_nominal (domain model) w) = false.
Proof.
  intros Hout%is_empty_true Hdet Hvar Hfix Hcol Hinf fit prob.
  assert (Hfit : v ∈ fit).
  { unfold fit, var_fit_set, var_feat_set.
    rewrite elem_of_difference, elem_of_union, elem_of_intersection,
      !elem_of_list_to_set.
    split; [done|]. intros [?|[_ ?]]; done. }
  assert (Hspec : forall w, w ∈ prob
             <-> w ∈ var_det model /\ w ∈ fit
                 /\ isfinite (get_nominal (domain model) w) = false).
  { intros w. unfold prob. rewrite elem_of_var_prob, elem_of_var_fit_det.
    split; [intros [? [? ?]]|intros [? [? ?]]]; done. }
  assert (Hv : v ∈ prob) by by apply Hspec.
  split; [|done].
  assert (Hne : is_empty fit = false).
  { apply is_empty_false. intros Hempty. rewrite Hempty in Hfit.
    by apply not_elem_of_empty in Hfit. }
  unfold prob, fit in *. clear Hspec prob fit.
  unfold eval_nls. pass_out. pass_check Hout. pass_tell. pass_tell.
  pass_check Hne. apply stops_with_raise_if.
  destruct (var_prob _ _); [by apply elem_of_nil in Hv|done].
Qed.

End NlsEdges.

Section NlsSolver.

Import EvalOpt.
Context `{Float} (order : SetOrder) `{!Collaborators}.

(** X11. The final [var_fit] holds exactly the variables of the model that
    are deterministic or random, that the caller did not fix, that are not
    deterministic of width zero, and that are not columns of the data. *)
Theorem nls_var_fit_spec model df var_fix v :
  v ∈ nls_var_fit order model df var_fix
  <-> (v ∈ var_det model \/ v ∈ var_rand model)
      /\ v ∈ var model
      /\ (v ∉ opt_names var_fix)
      /\ ~ (v ∈ var_det model
            /\ feqb (get_width (domain model) v) (of_int 0) = true)
      /\ (v ∉ columns df).
Proof.
  unfold nls_var_fit, var_fit_list, var_fit_set, var_feat_set.
  rewrite elem_of_app, elem_of_var_fit_det, elem_of_var_fit_rand.
  rewrite elem_of_difference, elem_of_union, elem_of_intersection,
    !elem_of_list_to_set, elem_of_var_fix_set.
  tauto.
Qed.

(** X14. The bounds of the random fit variables are the quantiles of their
    marginals at 0 and at 1, one pair per variable and in the order of the
    variables; without a density the lookup raises [AttributeError], and
    with a variable that has no marginal it raises the [KeyError] of such a
    variable. *)
Theorem rand_bounds_spec model fit_rand :
  (forall bs, rand_bounds model fit_rand = inr bs ->
     length bs = length fit_rand
     /\ forall i v, fit_rand !! i = Some v ->
          exists d mg,
            density model = Some d /\ marginals d !! v = Some mg
            /\ bs !! i = Some (q mg (of_int 0), q mg (of_int 1)))
  /\ (fit_rand ≠ [] -> density model = None ->
      rand_bounds model fit_rand = inl AttributeError)
  /\ (forall d v, density model = Some d -> v ∈ fit_rand ->
      marginals d !! v = None ->
      exists w, w ∈ fit_rand /\ marginals d !! w = None
                /\ rand_bounds model fit_rand = inl (KeyError w)).
Proof.
  split; [|split].
  - induction fit_rand as [|w l IH]; intros bs; simpl.
    + intros [= <-]. split; [done|]. intros i v Hi. by destruct i.
    + destruct (density model) as [d|] eqn:Hd; [|done].
      destruct (marginals d !! w) as [mg|] eqn:Hw; [|done].
      unfold mbind, exn_bind. destruct (rand_bounds model l) as [e|rest]; [done|].
      intros [= <-]. destruct (IH rest eq_refl) as [Hlen Hall].
      split; [simpl; by rewrite Hlen|].
      intros [|i] v Hi; simpl in *.
      * injection Hi as <-. by exists d, mg.
      * by apply Hall.
  - intros Hne Hnone. destruct fit_rand as [|w l]; [done|]. simpl.
    by rewrite Hnone.
  - intros d v Hd. induction fit_rand as [|w l IH]; intros Hin Hv.
    + by apply elem_of_nil in Hin.
    + simpl. rewrite Hd. destruct (marginals d !! w) as [mg|] eqn:Hw.
      * apply elem_of_cons in Hin as [->|Hin]; [congruence|].
        destruct (IH Hin Hv) as (u & Hu & Hnone & ->).
        exists u. split; [by right|]. done.
      * exists w. split; [by left|]. done.
Qed.

(** ** The number of solver calls *)

Lemma bind_inr_calls {A B} (m : M A) (f : A -> M B) b :
  outcome (m ≫= f) = inr b ->
  exists a, outcome m = inr a /\ outcome (f a) = inr b
            /\ solver_calls (m ≫= f) = (solver_calls m + solver_calls (f a))%nat.
Proof.
  intros Hb. rewrite solver_calls_bind. rewrite outcome_bind in Hb.
  destruct (outcome m) as [e|a]; [done|]. by exists a.
Qed.

Lemma nls_iterate_cons obj index (df_init : DataFrame) var_fit tol maxiter bounds i rest
    (acc : DataFrame) :
  nls_iterate obj index df_init var_fit tol maxiter bounds (i :: rest) acc
  = (init ← lift (getcols df_init var_fit);
     x0 ← lift (iloc_values index init i);
     tell (Minimize [x0]);;
     res ← lift (minimize_bounded obj x0 tol maxiter bounds);
     row ← lift (result_row var_fit x0 res);
     nls_iterate obj index df_init var_fit tol maxiter bounds rest (concat_rows acc row)).
Proof. reflexivity. Qed.

Lemma nls_iterate_calls obj index (df_init : DataFrame) var_fit tol maxiter bounds rows :
  forall acc res : DataFrame,
    outcome (nls_iterate obj index df_init var_fit tol maxiter bounds rows acc) = inr res ->
    solver_calls (nls_iterate obj index df_init var_fit tol maxiter bounds rows acc)
    = length rows.
Proof.
  induction rows as [|i rows IH]; intros acc res Hres; [done|].
  rewrite nls_iterate_cons in Hres |- *.
  destruct (bind_inr_calls _ _ _ Hres) as (init & _ & Hres1 & ->).
  cbv beta in Hres1.
  destruct (bind_inr_calls _ _ _ Hres1) as (x0 & _ & Hres2 & ->).
  cbv beta in Hres2.
  destruct (bind_inr_calls _ _ _ Hres2) as ([] & _ & Hres3 & ->).
  cbv beta in Hres3.
  destruct (bind_inr_calls _ _ _ Hres3) as (r & _ & Hres4 & ->).
  cbv beta in Hres4.
  destruct (bind_inr_calls _ _ _ Hres4) as (row & _ & Hres5 & ->).
  cbv beta in Hres5. rewrite (IH _ _ Hres5). reflexivity.
Qed.

(** ** What a call that returns has done *)

Lemma getcols_same (df1 df2 : DataFrame) names :
  (forall n, n ∈ names -> column df1 n = column df2 n) ->
  getcols df1 names = getcols df2 names.
Proof.
  induction names as [|n names IH]; intros Hsame; simpl; [done|].
  rewrite (Hsame n) by apply list_elem_of_here.
  rewrite IH; [done|]. intros m Hm. apply Hsame. by apply list_elem_of_further.
Qed.

(** Selecting the same columns again changes nothing. *)
Lemma getcols_idem (df : DataFrame) names (df' : DataFrame) :
  getcols df names = inr df' -> getcols df' names = inr df'.
Proof.
  intros Hget. rewrite <- Hget. apply getcols_same. intros n Hn.
  by destruct (getcols_column df names df' n Hget Hn) as (vs & -> & ->).
Qed.

Lemma lift_inr {A} (r : exn + A) a : outcome (lift r) = inr a -> r = inr a.
Proof. done. Qed.

Lemma nls_iterate_inv obj index (df_init : DataFrame) var_fit tol maxiter bounds rows :
  getcols df_init var_fit = inr df_init ->
  forall acc res : DataFrame,
    outcome (nls_iterate obj index df_init var_fit tol maxiter bounds rows acc) = inr res ->
    exists new_rows : list DataFrame,
      Forall2 (solved_row obj index df_init var_fit tol maxiter bounds) rows new_rows
      /\ res = fold_left concat_rows new_rows acc.
Proof.
  intros Hidem. induction rows as [|i rows IH]; intros acc res Hres.
  - exists []. split; [constructor|]. by injection Hres as <-.
  - rewrite nls_iterate_cons in Hres.
    apply bind_inr_inv in Hres as (init & Hinit%lift_inr & Hres).
    rewrite Hidem in Hinit. injection Hinit as <-. cbv beta in Hres.
    apply bind_inr_inv in Hres as (x0 & Hx0%lift_inr & Hres). cbv beta in Hres.
    apply bind_inr_inv in Hres as ([] & _ & Hres). cbv beta in Hres.
    apply bind_inr_inv in Hres as (r & Hr%lift_inr & Hres). cbv beta in Hres.
    apply bind_inr_inv in Hres as (row & Hrow%lift_inr & Hres). cbv beta in Hres.
    destruct (IH _ _ Hres) as (new_rows & Hall & ->).
    exists (row :: new_rows). split; [|done].
    constructor; [|done]. by exists x0, r.
Qed.

(** A call that returns got the nominal table and the bounds of the random
    fit variables, went through the loop once for each row of the initial
    guesses, each time with the objective and the bounds of the call, and
    returns the result rows one under the other (their fit columns,
    without [append]). *)
Lemma eval_nls_returns_inv model df out_arg var_fix append tol maxiter nrestart
    (res : DataFrame) :
  let fit :=
    var_fit_set model (var_fix_set model var_fix) (var_feat_set model df) in
  let var_fit := nls_var_fit order model df var_fix in
  let run :=
    eval_nls order model (Some df) out_arg var_fix append tol maxiter nrestart in
  outcome run = inr res ->
  exists (df_nom df_init : DataFrame) bounds_rand (rows : list DataFrame),
    eval_nominal model = inr df_nom
    /\ getcols df_nom var_fit = inr df_init
    /\ rand_bounds model (var_fit_rand order model fit) = inr bounds_rand
    /\ Forall2
         (solved_row
            (objective order model df df_nom (default (out model) out_arg)
               (var_feat_set model df) (var_fix_set model var_fix) var_fit)
            (nrows df_nom) df_init var_fit tol maxiter
            (map (get_bound (domain model)) (var_fit_det order model fit)
             ++ bounds_rand))
         (seq 0 (nrows df_nom)) rows
    /\ (if append then res = fold_left concat_rows rows []
        else getcols (fold_left concat_rows rows []) var_fit = inr res)
    /\ solver_calls run = nrows df_nom.
Proof.
  intros fit var_fit run. subst fit var_fit run. unfold eval_nls. intros Hres.
  destruct (bind_inr_calls _ _ _ Hres) as (out_names & Hout & Hres1 & E1).
  rewrite out_stage_outcome in Hout. injection Hout as <-.
  cbv beta in Hres1.
  destruct (bind_inr_calls _ _ _ Hres1) as (df' & Hdf & Hres2 & E2).
  injection Hdf as <-. cbv beta zeta in Hres2.
  destruct (bind_inr_calls _ _ _ Hres2) as ([] & _ & Hres3 & E3).
  cbv beta zeta in Hres3.
  destruct (bind_inr_calls _ _ _ Hres3) as ([] & _ & Hres4 & E4).
  cbv beta zeta in Hres4.
  destruct (bind_inr_calls _ _ _ Hres4) as ([] & _ & Hres5 & E5).
  cbv beta zeta in Hres5.
  destruct (bind_inr_calls _ _ _ Hres5) as ([] & _ & Hres6 & E6).
  cbv beta zeta in Hres6.
  destruct (bind_inr_calls _ _ _ Hres6) as ([] & _ & Hres7 & E7).
  cbv beta zeta in Hres7.
  destruct (bind_inr_calls _ _ _ Hres7) as (bounds_rand & Hb%lift_inr & Hres8 & E8).
  cbv beta zeta in Hres8.
  destruct (bind_inr_calls _ _ _ Hres8) as (df_nom & Hnom%lift_inr & Hres9 & E9).
  cbv beta zeta in Hres9.
  destruct (bind_inr_calls _ _ _ Hres9) as (df_init & Hinit%lift_inr & Hres10 & E10).
  cbv beta zeta in Hres10.
  destruct (bind_inr_calls _ _ _ Hres10) as ([] & _ & Hres11 & E11).
  cbv beta zeta in Hres11.
  destruct (bind_inr_calls _ _ _ Hres11) as (df_res & Hiter & Hres12 & E12).
  destruct (nls_iterate_inv _ _ _ _ _ _ _ _ (getcols_idem _ _ _ Hinit) _ _ Hiter)
    as (rows & Hrows & ->).
  exists df_nom, df_init, bounds_rand, rows.
  split; [exact Hnom|]. split; [exact Hinit|]. split; [exact Hb|].
  split; [exact Hrows|]. split.
  - destruct append.
    + by injection Hres12 as <-.
    + by apply lift_inr in Hres12.
  - rewrite E1. cbv beta. rewrite E2. cbv beta zeta. rewrite E3. cbv beta zeta.
    rewrite E4. cbv beta zeta. rewrite E5. cbv beta zeta. rewrite E6.
    cbv beta zeta. rewrite E7. cbv beta zeta. rewrite E8. cbv beta zeta.
    rewrite E9. cbv beta zeta. rewrite E10. cbv beta zeta. rewrite E11.
    cbv beta zeta. rewrite E12.
    rewrite (nls_iterate_calls _ _ _ _ _ _ _ _ _ _ Hiter), length_seq.
    rewrite out_stage_calls, !raise_if_calls.
    destruct append; unfold solver_calls; simpl; lia.
Qed.

(** X17. A call that returns has called the solver once for each row of the
    table of initial guesses, which is the nominal table restricted to the
    final [var_fit]: each time from the values of that row, on the objective
    of the call and within its bounds (the bounds of the deterministic fit
    variables, then the quantiles of the random ones). The table returned
    is made of the solver's results, one result row per call, in the order
    of the calls. *)
Theorem eval_nls_solver_calls model df out_arg var_fix append tol maxiter nrestart
    (res : DataFrame) :
  let fit :=
    var_fit_set model (var_fix_set model var_fix) (var_feat_set model df) in
  let var_fit := nls_var_fit order model df var_fix in
  let run :=
    eval_nls order model (Some df) out_arg var_fix append tol maxiter nrestart in
  outcome run = inr res ->
  exists (df_nom df_init : DataFrame) bounds_rand (rows : list DataFrame),
    eval_nominal model = inr df_nom
    /\ getcols df_nom var_fit = inr df_init
    /\ rand_bounds model (var_fit_rand order model fit) = inr bounds_rand
    /\ solver_calls run = nrows df_nom
    /\ length rows = nrows df_nom
    /\ (forall i row, rows !! i = Some row ->
          exists x0 r,
            iloc_values (nrows df_nom) df_init i = inr x0
            /\ minimize_bounded
                 (objective order model df df_nom (default (out model) out_arg)
                    (var_feat_set model df) (var_fix_set model var_fix) var_fit)
                 x0 tol maxiter
                 (map (get_bound (domain model)) (var_fit_det order model fit)
                  ++ bounds_rand) = inr r
            /\ result_row var_fit x0 r = inr row)
    /\ (if append then res = fold_left concat_rows rows []
        else getcols (fold_left concat_rows rows []) var_fit = inr res).
Proof.
  intros fit var_fit run Hres.
  destruct (eval_nls_returns_inv _ _ _ _ _ _ _ _ _ Hres)
    as (df_nom & df_init & bounds_rand & rows & Hnom & Hinit & Hb & Hrows
        & Hret & Hcalls).
  exists df_nom, df_init, bounds_rand, rows.
  split; [done|]. split; [done|]. split; [done|]. split; [done|].
  pose proof (Forall2_length _ _ _ Hrows) as Hlen. rewrite length_seq in Hlen.
  split; [done|]. split; [|done].
  intros i row Hi.
  destruct (Forall2_lookup_r _ _ _ _ _ Hrows Hi) as (k & Hk & Hrow).
  apply lookup_seq in Hk as [-> _]. exact Hrow.
Qed.

End NlsSolver.

(** * Result rows and the table of eval_min *)

Section ResultRows.

Import EvalOpt.
Context `{Float} `{!Collaborators}.

Lemma dict_set_key_in (d : list (string * V)) k v : k ∈ map fst (dict_set d k v).
Proof.
  induction d as [|[k' v'] d IH]; simpl; [by left|].
  destruct (String.eqb k' k) eqn:Hk; simpl; [by left|by right].
Qed.

Lemma dict_set_keeps (d : list (string * V)) k v name :
  name ∈ map fst d -> name ∈ map fst (dict_set d k v).
Proof.
  induction d as [|[k' v'] d IH]; simpl; intros Hin.
  - by apply elem_of_nil in Hin.
  - destruct (String.eqb k' k) eqn:Hk; simpl.
    + apply String.eqb_eq in Hk as ->. done.
    + apply elem_of_cons in Hin as [ -> |Hin]; [by left|right; by apply IH].
Qed.

Lemma dict_set_NoDup (d : list (string * V)) k v :
  NoDup (map fst d) -> NoDup (map fst (dict_set d k v)).
Proof.
  induction d as [|[k' v'] d IH]; simpl; intros Hnd.
  - apply NoDup_singleton.
  - apply NoDup_cons in Hnd as [Hfresh Hnd].
    destruct (String.eqb k' k) eqn:Hk; simpl.
    + apply String.eqb_eq in Hk as ->. by apply NoDup_cons.
    + apply String.eqb_neq in Hk. apply NoDup_cons. split; [|by apply IH].
      intros [ -> |Hin]%dict_set_keys; [done|by apply Hfresh].
Qed.

Lemma dict_fold_spec (kvs : list (string * V)) : forall d,
  (NoDup (map fst d) ->
   NoDup (map fst (fold_left (fun d kv => dict_set d (fst kv) (snd kv)) kvs d)))
  /\ (forall name, name ∈ map fst kvs \/ name ∈ map fst d ->
      name ∈ map fst (fold_left (fun d kv => dict_set d (fst kv) (snd kv)) kvs d)).
Proof.
  induction kvs as [|[k v] kvs IH]; intros d; simpl.
  - split; [done|]. intros name [Hin|?]; [by apply elem_of_nil in Hin|done].
  - destruct (IH (dict_set d k v)) as [IHnd IHin]. split.
    + intros Hnd. by apply IHnd, dict_set_NoDup.
    + intros name [Hin|Hin]; apply IHin.
      * apply elem_of_cons in Hin as [ -> |Hin]; [right; apply dict_set_key_in|by left].
      * right. by apply dict_set_keeps.
Qed.

(** The keys of [dict(zip(keys, vals))] are distinct, and a key that has a
    value is among them. *)
Lemma dict_zip_NoDup keys (vals : list V) : NoDup (map fst (dict_zip keys vals)).
Proof. apply dict_fold_spec. simpl. apply NoDup_nil_2. Qed.

Lemma dict_zip_key_in keys (vals : list V) i k :
  keys !! i = Some k -> (i < length vals)%nat -> k ∈ map fst (dict_zip keys vals).
Proof.
  intros Hk Hi. apply dict_fold_spec. left.
  destruct (lookup_lt_is_Some_2 vals i Hi) as [v Hv].
  apply list_elem_of_fmap. exists (k, v). split; [done|].
  apply list_elem_of_lookup. exists i. apply lookup_zip_with_Some.
  by exists k, v.
Qed.

(** X19. A result row has one value in each column and no column twice: its
    columns are the fit variables, the fit variables suffixed with "_0",
    "status" and "mse". A fit variable named "status" or "mse" for which the
    solver returned a value makes the row impossible: Python refuses the
    repeated keyword with a [TypeError]. *)
Theorem result_row_columns var_fit (x0 : list V) (res : OptimizeResult) :
  (forall row : DataFrame, result_row var_fit x0 res = inr row ->
     NoDup (columns row)
     /\ Forall (fun c => length (snd c) = 1%nat) row
     /\ forall name, name ∈ columns row ->
          name ∈ var_fit
          \/ (exists v, v ∈ var_fit /\ name = v +:+ "_0")
          \/ name = "status" \/ name = "mse")
  /\ (forall i name, var_fit !! i = Some name -> (i < length (res_x res))%nat ->
      name = "status" \/ name = "mse" ->
      result_row var_fit x0 res = inl TypeError).
Proof.
  unfold result_row. split.
  - intros row. case_bool_decide as Hnd; [|done]. intros [= <-].
    unfold columns, df_make. rewrite map_map. simpl. split; [done|]. split.
    + apply Forall_forall. intros c Hc.
      by apply list_elem_of_In, in_map_iff in Hc as (kv & <- & _).
    + intros name. rewrite !map_app, !elem_of_app. simpl.
      intros [Hin|[Hin|Hin]].
      * left. by apply dict_zip_keys in Hin.
      * right. left. apply dict_zip_keys in Hin.
        apply list_elem_of_In, in_map_iff in Hin as (v & <- & Hv%list_elem_of_In).
        by exists v.
      * right. right. apply elem_of_cons in Hin as [ -> |Hin]; [by left|].
        apply list_elem_of_singleton in Hin as ->. by right.
  - intros i name Hi Hlen Hname. case_bool_decide as Hnd; [|done]. exfalso.
    rewrite !map_app in Hnd. apply NoDup_app in Hnd as (_ & Hdisj & _).
    apply (Hdisj name).
    + by apply dict_zip_key_in with i.
    + apply elem_of_app. right. simpl.
      destruct Hname as [ -> | -> ]; [by left|right; by left].
Qed.

(** X20. The table that [eval_min] returns has a single value in each
    column, no column twice, and only variables of the model as columns. *)
Theorem eval_min_table model out_min out_geq out_eq method tol nrestart maxiter
    df_start (res : DataFrame) :
  outcome (eval_min model out_min out_geq out_eq method tol nrestart maxiter
             df_start) = inr res ->
  NoDup (columns res)
  /\ Forall (fun c => fst c ∈ var model /\ length (snd c) = 1%nat) res.
Proof.
  unfold eval_min. intros Hres.
  do 7 (apply bind_inr_inv in Hres as (? & _ & Hres); cbv beta zeta in Hres).
  apply bind_inr_inv in Hres as (r & _ & Hres). injection Hres as <-.
  unfold columns, df_make. rewrite map_map. simpl. split.
  - apply dict_zip_NoDup.
  - apply Forall_forall. intros c Hc.
    apply list_elem_of_In, in_map_iff in Hc as ([k v] & <- & Hkv%list_elem_of_In).
    simpl. split; [|done]. apply (dict_zip_keys (var model) (res_x r)).
    apply list_elem_of_fmap. by exists (k, v).
Qed.

Lemma column_None (df : DataFrame) v : column df v = None <-> v ∉ columns df.
Proof.
  induction df as [|[n vs] df IH]; simpl.
  - split; [intros _ Hin; by apply elem_of_nil in Hin|done].
  - destruct (String.eqb n v) eqn:Hn.
    + apply String.eqb_eq in Hn as ->. split; [done|]. intros Hnot.
      exfalso. apply Hnot. by left.
    + apply String.eqb_neq in Hn. rewrite IH, not_elem_of_cons.
      split; [by intros ?|by intros [_ ?]].
Qed.

(** Selecting columns raises the [KeyError] of the first name that is not a
    column. *)
Lemma getcols_KeyError (df : DataFrame) names v :
  v ∈ names -> v ∉ columns df ->
  exists w, w ∈ names /\ (w ∉ columns df) /\ getcols df names = inl (KeyError w).
Proof.
  induction names as [|n names IH]; intros Hin Hv.
  - by apply elem_of_nil in Hin.
  - simpl. destruct (column df n) as [vs|] eqn:Hn.
    + apply elem_of_cons in Hin as [ -> |Hin].
      { apply column_None in Hv. congruence. }
      destruct (IH Hin Hv) as (w & Hw & Hnot & ->).
      exists w. split; [by right|]. done.
    + exists n. split; [by left|]. split; [by apply column_None|done].
Qed.

(** X21. When all the checks pass and the caller's [df_start] lacks a
    variable of the model, [eval_min] raises the [KeyError] of such a
    variable, and the solver is not called. *)
Theorem eval_min_start_missing model out_min out_geq out_eq method tol nrestart
    maxiter (d : DataFrame) v :
  min_preconditions model out_min out_geq out_eq ->
  v ∈ var model -> v ∉ columns d ->
  exists w,
    w ∈ var model /\ (w ∉ columns d)
    /\ eval_min model out_min out_geq out_eq method tol nrestart maxiter (Some d)
       = ([], inl (KeyError w)).
Proof.
  intros (Hzero & (o & -> & Ho) & Hg & He) Hv Hnot.
  apply names_missing_empty in Hg, He.
  destruct (getcols_KeyError d (var model) v Hv Hnot) as (w & Hw & Hwnot & Hget).
  exists w. split; [done|]. split; [done|].
  unfold eval_min. rewrite bind_raise_if, Hzero. cbn [Nat.ltb Nat.leb].
  rewrite check_out_min_ok, bind_ret by done.
  rewrite (check_outputs_ok _ model out_geq), bind_ret by done.
  rewrite (check_outputs_ok _ model out_eq), bind_ret by done.
  rewrite bind_ret, bind_lift, Hget. reflexivity.
Qed.

End ResultRows.

(** * Further calls on concrete inputs *)

Section MoreRuns.

Import EvalOpt Examples.

Lemma eval_nls_nothing_to_fit_witness :
  stops_with
    (eval_nls order_a md_fit (Some df_obs) None (Some (var md_fit)) false
       (1 # 1000)%Q 25 1)
    (ValueError "No var selected for fitting!" NoDetail).
Proof.
  apply eval_nls_nothing_to_fit.
  - apply is_empty_true. by vm_compute.
  - intros v Hv. left. apply elem_of_var_fix_set. by left.
Defined.

Lemma eval_nls_nonfinite_nominal_witness :
  stops_with
    (@eval_nls MoreExamples.NQ_float order_a MoreExamples.nq_toy
       MoreExamples.md_inf (Some MoreExamples.df_y) None None false
       (Some (1 # 1000)%Q) 25 1)
    (ValueError "all variables to be fitted must finite nominal value"
       (Names ["b"])).
Proof.
  refine (proj1 (@eval_nls_nonfinite_nominal MoreExamples.NQ_float order_a
                   MoreExamples.nq_toy MoreExamples.md_inf
                   MoreExamples.df_y None None false (Some (1 # 1000)%Q) 25 1 "b"
                   _ _ _ _ _ eq_refl)).
  - apply is_empty_true. by vm_compute.
  - apply list_elem_of_further, list_elem_of_here.
  - apply list_elem_of_further, list_elem_of_here.
  - intros [Hin|[_ Hw]]%elem_of_var_fix_set; [by apply elem_of_nil in Hin|].
    discriminate Hw.
  - intros Hin%list_elem_of_singleton. discriminate Hin.
Defined.

Lemma eval_nls_multistart_refused_witness :
  refused (eval_nls order_a md_fit (Some df_obs) None None false (1 # 1000)%Q 25 2).
Proof. apply eval_nls_multistart_refused. lia. Defined.

Lemma eval_nls_multistart_not_implemented_witness :
  outcome (eval_nls order_a md_fit (Some df_obs) None None false (1 # 1000)%Q 25 3)
  = inl NotImplementedError.
Proof.
  apply (eval_nls_multistart_not_implemented order_a md_fit (Some df_obs) None None
           false (1 # 1000)%Q 25 3
           [("c", [1%Q]); ("b", [1%Q]); ("s", [1%Q]); ("r", [1%Q])]);
    [by vm_compute|lia].
Defined.

Lemma eval_min_table_witness :
  NoDup (columns [("x", [1%Q]); ("y", [1%Q])])
  /\ Forall (fun c => fst c ∈ var md_det /\ length (snd c) = 1%nat)
       [("x", [1%Q]); ("y", [1%Q])].
Proof.
  apply (eval_min_table md_det (Some "c") (Some ["g1"]) None "SLSQP"
           (1 # 1000000)%Q 1 50 None).
  by vm_compute.
Defined.

Lemma eval_min_start_missing_witness :
  exists w,
    w ∈ var md_det /\ (w ∉ columns [("x", [1%Q])])
    /\ eval_min md_det (Some "c") (Some ["g1"]) None "SLSQP" (1 # 1000000)%Q 1 50
         (Some [("x", [1%Q])])
       = ([], inl (KeyError w)).
Proof.
  apply (eval_min_start_missing md_det (Some "c") (Some ["g1"]) None "SLSQP"
           (1 # 1000000)%Q 1 50 [("x", [1%Q])] "y").
  - split; [reflexivity|]. split.
    + exists "c". split; [reflexivity|]. apply list_elem_of_here.
    + split; intros name Hin.
      * apply list_elem_of_singleton in Hin as ->.
        apply list_elem_of_further, list_elem_of_here.
      * by apply elem_of_nil in Hin.
  - apply list_elem_of_further, list_elem_of_here.
  - intros Hin%list_elem_of_singleton. discriminate Hin.
Defined.

End MoreRuns.

(** * Parameters that are missing, and trial values *)

Section MissingParameters.

Import RandomSampling.
Context `{Collaborators}.

Lemma convert_columns_raises d inds : forall (samples : matrix) c,
  c ∈ inds -> (forall X : matrix, raised (convert_column d c X)) ->
  raised (convert_columns d inds samples).
Proof.
  induction inds as [|i inds IH]; intros samples c Hin Hc.
  - by apply elem_of_nil in Hin.
  - simpl. unfold mbind, exn_bind.
    destruct (convert_column d i samples) as [e|s1] eqn:H1; [done|].
    apply elem_of_cons in Hin as [ -> |Hin]; [|by apply (IH s1 c)].
    specialize (Hc samples). by rewrite H1 in Hc.
Qed.

(** X9. A uniform marginal whose parameters lack "upper" makes the loop body
    raise [KeyError] "upper" (also when "lower" is missing too), one that
    has "upper" but lacks "lower" [KeyError] "lower"; a normal marginal
    likewise for "loc", then "scale". With such a marginal among the [n_in]
    inputs the call never returns a table. *)
Theorem eval_monte_carlo_missing_parameter d c p :
  pdf_param d !! c = Some p ->
  (forall samples : matrix,
     (pdf_factors d !! c = Some "unif" -> p !! "upper" = None ->
      convert_column d c samples = inl (KeyError "upper"))
     /\ (pdf_factors d !! c = Some "unif" -> is_Some (p !! "upper") ->
         p !! "lower" = None ->
         convert_column d c samples = inl (KeyError "lower"))
     /\ (pdf_factors d !! c = Some "norm" -> p !! "loc" = None ->
         convert_column d c samples = inl (KeyError "loc"))
     /\ (pdf_factors d !! c = Some "norm" -> is_Some (p !! "loc") ->
         p !! "scale" = None ->
         convert_column d c samples = inl (KeyError "scale")))
  /\ (forall model n_samples seed append (s : rng),
        density model = Some d -> (c < n_in model)%nat ->
        (pdf_factors d !! c = Some "unif"
         /\ (p !! "upper" = None \/ p !! "lower" = None))
        \/ (pdf_factors d !! c = Some "norm"
            /\ (p !! "loc" = None \/ p !! "scale" = None)) ->
        raised (fst (eval_monte_carlo model n_samples seed append s))).
Proof.
  intros Hp.
  assert (Hcol : forall samples : matrix,
     (pdf_factors d !! c = Some "unif" -> p !! "upper" = None ->
      convert_column d c samples = inl (KeyError "upper"))
     /\ (pdf_factors d !! c = Some "unif" -> is_Some (p !! "upper") ->
         p !! "lower" = None ->
         convert_column d c samples = inl (KeyError "lower"))
     /\ (pdf_factors d !! c = Some "norm" -> p !! "loc" = None ->
         convert_column d c samples = inl (KeyError "loc"))
     /\ (pdf_factors d !! c = Some "norm" -> is_Some (p !! "loc") ->
         p !! "scale" = None ->
         convert_column d c samples = inl (KeyError "scale"))).
  { intros samples. unfold convert_column, index, getitem.
    repeat split.
    - intros -> Hu. simpl. rewrite Hp. simpl. by rewrite Hu.
    - intros -> [u Hu] Hl. simpl. rewrite Hp. simpl. by rewrite Hu, Hl.
    - intros -> Hu. simpl. rewrite Hp. simpl. by rewrite Hu.
    - intros -> [u Hu] Hl. simpl. rewrite Hp. simpl. by rewrite Hu, Hl. }
  split; [done|].
  intros model n_samples seed append s Hd Hc Hcase.
  assert (Hraise : forall X : matrix, raised (convert_column d c X)).
  { intros X. destruct (Hcol X) as (Hu & Hl & Hloc & Hsc).
    destruct Hcase as [[Hf [Hnone|Hnone]]|[Hf [Hnone|Hnone]]].
    - by rewrite (Hu Hf Hnone).
    - destruct (p !! "upper") as [u|] eqn:Hup.
      + by rewrite (Hl Hf ltac:(by eexists) Hnone).
      + by rewrite (Hu Hf eq_refl).
    - by rewrite (Hloc Hf Hnone).
    - destruct (p !! "loc") as [u|] eqn:Hup.
      + by rewrite (Hsc Hf ltac:(by eexists) Hnone).
      + by rewrite (Hloc Hf eq_refl). }
  unfold eval_monte_carlo, sample_inputs, mbind, st_mbind, st_bind, lift.
  destruct (check_density model) as [e|d'] eqn:Hchk; [done|].
  apply (check_density_Some _ _ _ Hd) in Hchk as ->.
  destruct (set_seed seed s) as [[e|[]] s0]; [done|].
  destruct (draw_samples model d n_samples s0) as [[e|raw] s1]; [done|].
  pose proof (convert_columns_raises d (seq 0 (n_in model)) raw c) as Hall.
  unfold convert_marginals.
  destruct (convert_columns d (seq 0 (n_in model)) raw) as [e|out]; [done|].
  exfalso. apply Hall; [|done]. apply elem_of_seq. lia.
Qed.

End MissingParameters.

Section TrialValues.

Import EvalOpt.
Context `{Float} (order : SetOrder) `{!Collaborators}.

Lemma dict_set_fresh (d : list (string * V)) k v :
  k ∉ map fst d -> dict_set d k v = d ++ [(k, v)].
Proof.
  induction d as [|[k' v'] d IH]; simpl; intros Hk; [done|].
  apply not_elem_of_cons in Hk as [Hne Hk].
  apply not_eq_sym, String.eqb_neq in Hne. rewrite Hne. by rewrite IH.
Qed.

(** With distinct keys, [dict(zip(keys, vals))] is the list of the pairs. *)
Lemma dict_zip_NoDup_zip keys (vals : list V) :
  NoDup keys -> dict_zip keys vals = zip keys vals.
Proof.
  unfold dict_zip.
  assert (Hgen : forall (ks : list string) (vs : list V) d,
             NoDup ks -> (forall k, k ∈ ks -> k ∉ map fst d) ->
             fold_left (fun d kv => dict_set d (fst kv) (snd kv)) (zip ks vs) d
             = d ++ zip ks vs).
  { induction ks as [|k ks IH]; intros vs d Hnd Hdisj; simpl.
    - by rewrite app_nil_r.
    - destruct vs as [|v vs]; simpl; [by rewrite app_nil_r|].
      apply NoDup_cons in Hnd as [Hk Hnd].
      rewrite dict_set_fresh by (apply Hdisj; by left).
      rewrite IH; [by rewrite <- app_assoc|done|].
      intros k' Hk'. rewrite map_app, elem_of_app. simpl.
      intros [Hin|Hin%list_elem_of_singleton].
      + by apply (Hdisj k'); [right|].
      + by subst. }
  intros Hnd. rewrite Hgen; [done|done|].
  intros k _ Hin. by apply elem_of_nil in Hin.
Qed.

Lemma column_app_r (a b : DataFrame) v :
  column a v = None -> column (a ++ b) v = column b v.
Proof.
  induction a as [|[n ws] a IH]; simpl; [done|].
  by destruct (String.eqb n v).
Qed.

Lemma column_df_make_zip keys (vals : list V) : forall i v x,
  NoDup keys -> keys !! i = Some v -> vals !! i = Some x ->
  column (df_make (zip keys vals)) v = Some [x].
Proof.
  revert vals. induction keys as [|k keys IH]; intros vals i v x Hnd Hk Hx;
    [done|].
  destruct vals as [|y vals]; [done|].
  apply NoDup_cons in Hnd as [Hfresh Hnd]. simpl.
  destruct i as [|i]; simpl in *.
  - injection Hk as ->. injection Hx as ->. by rewrite String.eqb_refl.
  - destruct (String.eqb k v) eqn:Hkv.
    + apply String.eqb_eq in Hkv as ->. exfalso. apply Hfresh.
      by apply list_elem_of_lookup_2 in Hk.
    + by apply (IH vals i).
Qed.

(** X18. In the row that the objective hands on for evaluation, a fit
    variable has the trial value the solver proposes for it: the [i]-th
    entry of [x] for the [i]-th name of [var_fit], for distinct names that
    are not in [var_fix]. *)
Theorem fixed_row_trial_value (df_nom : DataFrame) (var_fix : gset string) var_fit
    (x : list V) (row : DataFrame) i v xi :
  NoDup var_fit ->
  var_fit !! i = Some v -> x !! i = Some xi ->
  v ∉ var_fix ->
  fixed_row order df_nom var_fix var_fit x = inr row ->
  column row v = Some [xi].
Proof.
  intros Hnd Hv Hx Hfix. unfold fixed_row, mbind, exn_bind, mret, exn_ret.
  destruct (getcols df_nom (set_list order var_fix)) as [e|nom_fix] eqn:Hget;
    [done|].
  unfold iloc_row. destruct (Nat.ltb 0 (nrows df_nom)); [|done].
  intros [= <-]. unfold concat_columns. rewrite column_app_r.
  - rewrite dict_zip_NoDup_zip by done. by apply column_df_make_zip with i.
  - rewrite (column_map_values (fun vs => take 1 (drop 0 vs))).
    assert (Hnone : column nom_fix v = None).
    { apply column_None. rewrite (getcols_columns _ _ _ Hget).
      by rewrite elem_of_set_list. }
    by rewrite Hnone.
Qed.

End TrialValues.

Lemma eval_monte_carlo_missing_parameter_witness :
  raised (fst (@RandomSampling.eval_monte_carlo exact SamplerExamples.toy
                 MoreExamples.md_no_upper 1 None true 0%Z)).
Proof.
  apply (proj2 (@eval_monte_carlo_missing_parameter exact SamplerExamples.toy
                  MoreExamples.no_upper_density 0 {[ "lower" := 0%Q ]} eq_refl)
           MoreExamples.md_no_upper 1 None true 0%Z eq_refl).
  - simpl. lia.
  - left. split; [reflexivity|]. left. reflexivity.
Defined.

Lemma fixed_row_trial_value_witness :
  @EvalOpt.column Examples.Q_float [("b", [3%Q]); ("c", [4%Q])] "c" = Some [4%Q].
Proof.
  apply (@fixed_row_trial_value Examples.Q_float Examples.order_a
           [("a", [1%Q; 2%Q]); ("b", [5%Q; 6%Q])] ∅ ["b"; "c"]
           [3%Q; 4%Q] _ 1 "c" 4%Q).
  - apply NoDup_cons. split; [|apply NoDup_singleton].
    intros Hin%list_elem_of_singleton. discriminate Hin.
  - reflexivity.
  - reflexivity.
  - apply not_elem_of_empty.
  - by vm_compute.
Defined.

(** * Variables of width zero *)

Section ZeroWidth.

Import EvalOpt.
Context `{Float} (order : SetOrder) `{!Collaborators}.

(** X24. A deterministic variable whose width compares equal to zero is in
    [var_fix] whatever the caller passed and is not in [var_fit] (so it is
    not a key of the fitted values of a result row, and not a column of the
    table returned without [append]). When it is not also a column of
    [df_data], every table that the objective evaluates the model on has
    the variable at its nominal value (the first row of the nominal table)
    in each row, the value of the objective being the mean square of the
    residuals of that evaluation; and every call of the solver is made on
    that objective. *)
Theorem zero_width_variable_fixed model v :
  v ∈ var_det model ->
  feqb (get_width (domain model) v) (of_int 0) = true ->
  (forall var_fix, v ∈ var_fix_set model var_fix)
  /\ (forall df var_fix, v ∉ nls_var_fit order model df var_fix)
  /\ (forall df var_fix (xs : list V),
        v ∉ map fst (dict_zip (nls_var_fit order model df var_fix) xs))
  /\ (forall df out_arg var_fix tol maxiter nrestart (res : DataFrame),
        outcome (eval_nls order model (Some df) out_arg var_fix false tol
                   maxiter nrestart) = inr res ->
        v ∉ columns res)
  /\ (forall df (df_nom : DataFrame) out_names var_fix (x : list V)
             (feat row df_var : DataFrame),
        broadcasts_rows ->
        v ∉ columns df ->
        getcols df (set_list order (var_feat_set model df)) = inr feat ->
        fixed_row order df_nom (var_fix_set model var_fix)
          (nls_var_fit order model df var_fix) x = inr row ->
        tran_outer (nrows df) feat row = inr df_var ->
        (exists vs,
            column df_nom v = Some vs
            /\ column row v = Some (take 1 vs)
            /\ forall val rest, vs = val :: rest ->
                 column df_var v = Some (repeat val (nrows df)))
        /\ objective order model df df_nom out_names (var_feat_set model df)
             (var_fix_set model var_fix) (nls_var_fit order model df var_fix) x
           = (df_res ← eval_df model df_var;
              pred ← getcols df_res out_names;
              obs ← getcols df out_names;
              r ← residuals pred obs;
              mret (mean_square r)))
  /\ (forall df out_arg var_fix append tol maxiter nrestart (res : DataFrame),
        outcome (eval_nls order model (Some df) out_arg var_fix append tol
                   maxiter nrestart) = inr res ->
        exists (df_nom df_init : DataFrame) bounds (rows : list DataFrame),
          eval_nominal model = inr df_nom
          /\ Forall2
               (solved_row
                  (objective order model df df_nom (default (out model) out_arg)
                     (var_feat_set model df) (var_fix_set model var_fix)
                     (nls_var_fit order model df var_fix))
                  (nrows df_nom) df_init (nls_var_fit order model df var_fix) tol
                  maxiter bounds)
               (seq 0 (nrows df_nom)) rows
          /\ (if append then res = fold_left concat_rows rows []
              else getcols (fold_left concat_rows rows [])
                     (nls_var_fit order model df var_fix) = inr res)).
Proof.
  intros Hdet Hwid.
  assert (Hfix : forall var_fix, v ∈ var_fix_set model var_fix).
  { intros var_fix. apply elem_of_var_fix_set. by right. }
  assert (Hfit : forall df var_fix, v ∉ nls_var_fit order model df var_fix).
  { intros df var_fix Hin%elem_of_nls_var_fit. destruct Hin as (_ & Hnot & _).
    by apply Hnot. }
  split; [done|]. split; [done|]. split; [|split; [|split]].
  - intros df var_fix xs Hin%dict_zip_keys. by apply (Hfit df var_fix).
  - intros df out_arg var_fix tol maxiter nrestart res Hres.
    rewrite (eval_nls_columns _ _ _ _ _ _ _ _ _ Hres). apply Hfit.
  - intros df df_nom out_names var_fix x feat row df_var Hjoin Hcol Hfeat Hrow
      Hvar.
    split.
    + destruct (fixed_row_nominal _ _ _ _ _ _ v (Hfix var_fix) Hrow)
        as (vs & Hnom & Hv).
      exists vs. split; [done|]. split; [done|]. intros val rest ->.
      rewrite (Hjoin _ _ _ _ v [val] Hvar); [| |exact Hv].
      * simpl. by rewrite app_nil_r.
      * rewrite (getcols_columns _ _ _ Hfeat), elem_of_set_list.
        unfold var_feat_set.
        rewrite elem_of_intersection, !elem_of_list_to_set. by intros [_ ?].
    + unfold objective. rewrite Hfeat. unfold mbind at 1, exn_bind at 1.
      rewrite Hrow. unfold mbind at 1, exn_bind at 1. by rewrite Hvar.
  - intros df out_arg var_fix append tol maxiter nrestart res Hres.
    destruct (eval_nls_returns_inv _ _ _ _ _ _ _ _ _ _ Hres)
      as (df_nom & df_init & bounds_rand & rows & Hnom & _ & _ & Hrows & Hret & _).
    by eexists df_nom, df_init, _, rows.
Qed.

End ZeroWidth.

Lemma column_cross_join_row (n : nat) (a b : EvalOpt.DataFrame) c vals :
  c ∉ EvalOpt.columns a -> EvalOpt.column b c = Some vals ->
  EvalOpt.column (Examples.cross_join_row n a b) c
  = Some (flat_map (fun v => repeat v n) vals).
Proof.
  intros Hc Hb. unfold Examples.cross_join_row. rewrite column_app_r.
  - by rewrite (column_map_values (flat_map (fun v => repeat v n))), Hb.
  - apply column_None. unfold EvalOpt.columns. by rewrite map_map.
Qed.

Lemma toy_broadcasts_rows : @EvalOpt.broadcasts_rows Examples.Q_float Examples.toy.
Proof.
  intros n a b df c vals [= <-]. apply column_cross_join_row.
Qed.

Section ZeroWidthRuns.

Import EvalOpt Examples.

Lemma zero_width_variable_fixed_witness :
  "a" ∈ var_fix_set md_fit None
  /\ exists vs,
       column (nominal_row md_fit) "a" = Some vs
       /\ column [("a", [1%Q]); ("c", [1%Q]); ("b", [1%Q]); ("s", [1%Q]);
                  ("r", [1%Q])] "a" = Some (take 1 vs)
       /\ forall val rest, vs = val :: rest ->
            column [("a", [1%Q; 1%Q]); ("c", [1%Q; 1%Q]); ("b", [1%Q; 1%Q]);
                    ("s", [1%Q; 1%Q]); ("r", [1%Q; 1%Q])] "a"
            = Some (repeat val 2).
Proof.
  pose proof (zero_width_variable_fixed order_a md_fit "a"
                ltac:(by apply list_elem_of_here) eq_refl)
    as (Hfix & _ & _ & _ & Hval & _).
  split; [apply Hfix|].
  refine (proj1 (Hval df_obs (nominal_row md_fit) ["y"] None
                   [1%Q; 1%Q; 1%Q; 1%Q] [] _ _ toy_broadcasts_rows _
                   eq_refl eq_refl eq_refl)).
  intros Hin%list_elem_of_singleton. discriminate Hin.
Defined.


Lemma eval_nls_solver_calls_witness :
  exists (df_nom df_init : DataFrame) bounds_rand (rows : list DataFrame),
    eval_nominal md_det = inr df_nom
    /\ getcols df_nom (nls_var_fit order_a md_det MoreExamples.df_c None) = inr df_init
    /\ rand_bounds md_det
         (var_fit_rand order_a md_det
            (var_fit_set md_det (var_fix_set md_det None)
               (var_feat_set md_det MoreExamples.df_c))) = inr bounds_rand
    /\ solver_calls (eval_nls order_a md_det (Some MoreExamples.df_c) (Some ["c"]) None false
                       (1 # 1000)%Q 25 1) = nrows df_nom
    /\ length rows = nrows df_nom
    /\ (forall i row, rows !! i = Some row ->
          exists x0 r,
            iloc_values (nrows df_nom) df_init i = inr x0
            /\ minimize_bounded
                 (objective order_a md_det MoreExamples.df_c df_nom (default (out md_det) (Some ["c"]))
                    (var_feat_set md_det MoreExamples.df_c) (var_fix_set md_det None)
                    (nls_var_fit order_a md_det MoreExamples.df_c None))
                 x0 (1 # 1000)%Q 25
                 (map (get_bound (domain md_det))
                    (var_fit_det order_a md_det
                       (var_fit_set md_det (var_fix_set md_det None)
                          (var_feat_set md_det MoreExamples.df_c)))
                  ++ bounds_rand) = inr r
            /\ result_row (nls_var_fit order_a md_det MoreExamples.df_c None) x0 r = inr row)
    /\ getcols (fold_left concat_rows rows [])
         (nls_var_fit order_a md_det MoreExamples.df_c None)
       = inr [("y", [1%Q]); ("x", [1%Q])].
Proof.
  apply (eval_nls_solver_calls order_a md_det MoreExamples.df_c (Some ["c"]) None false
           (1 # 1000)%Q 25 1 [("y", [1%Q]); ("x", [1%Q])]).
  by vm_compute.
Defined.

End ZeroWidthRuns.

(** * Reordering the levels of a factor *)

Section FctReorder.

Import MutateHelpers.
Context (order : SetOrder) (sorter : ArgSort) (summary : list Q -> Q).

Lemma masked_accepted kind f x level :
  mask_accepted kind f x -> masked kind f x level = inr (selected f x level).
Proof.
  unfold masked. intros [Hlen|[-> Hlt]].
  - by rewrite Hlen, Nat.eqb_refl.
  - destruct (Nat.eqb_spec (length f) (length x)); [done|].
    apply Nat.ltb_lt in Hlt. by rewrite Hlt.
Qed.

Lemma level_values_ok kind f x levels :
  mask_accepted kind f x \/ levels = [] ->
  level_values kind summary f x levels
  = inr (map (fun level => summary (selected f x level)) levels).
Proof.
  intros [Hacc| ->]; [|done].
  induction levels as [|level levels IH]; simpl; [done|].
  rewrite masked_accepted by done. simpl. by rewrite IH.
Qed.

Lemma level_values_Array_mismatch f x levels :
  levels ≠ [] -> length f ≠ length x ->
  level_values Array summary f x levels = inl IndexError.
Proof.
  intros Hne Hlen. destruct levels as [|level levels]; [done|]. simpl.
  unfold masked. apply Nat.eqb_neq in Hlen. by rewrite Hlen.
Qed.

Lemma level_values_Series_short f x levels :
  levels ≠ [] -> (length f < length x)%nat ->
  level_values Series summary f x levels = inl IndexingError.
Proof.
  intros Hne Hlen. destruct levels as [|level levels]; [done|]. simpl.
  unfold masked.
  destruct (Nat.eqb_spec (length f) (length x)); [lia|].
  destruct (Nat.ltb_spec (length x) (length f)); [lia|done].
Qed.

Lemma take_indices_in_range levels idx :
  Forall (fun a => (a < length levels)%nat) idx ->
  take_indices levels idx = inr (map (level_at levels) idx).
Proof.
  induction idx as [|a idx IH]; intros Hall; simpl; [done|].
  apply Forall_cons in Hall as [Ha Hall].
  destruct (lookup_lt_is_Some_2 levels a Ha) as [level Hlevel].
  unfold level_at at 1. rewrite Hlevel, IH by done. done.
Qed.

Lemma level_at_seq levels : map (level_at levels) (seq 0 (length levels)) = levels.
Proof.
  apply list_eq. intros i. change (@map nat string) with (@fmap list _ nat string).
  rewrite list_lookup_fmap. destruct (decide (i < length levels)%nat) as [Hi|Hi].
  - rewrite lookup_seq_lt by done. simpl. unfold level_at.
    by destruct (lookup_lt_is_Some_2 levels i Hi) as [level ->].
  - rewrite lookup_seq_ge by lia. simpl. symmetry. apply lookup_ge_None. lia.
Qed.

Lemma levels_nil f : set_list order (list_to_set f) = [] <-> f = [].
Proof.
  split.
  - intros Hnil. destruct f as [|v f]; [done|]. exfalso.
    assert (Hin : v ∈ set_list order (list_to_set (v :: f))).
    { rewrite (set_list_perm order), elem_of_elements, elem_of_list_to_set.
      by left. }
    rewrite Hnil in Hin. by apply elem_of_nil in Hin.
  - intros ->. apply Permutation_nil_r. rewrite (set_list_perm order).
    simpl. by rewrite elements_empty.
Qed.

(** The categories that [fct_reorder] computes. *)
Lemma fct_reorder_unfold kind f x :
  mask_accepted kind f x \/ f = [] ->
  let levels := set_list order (list_to_set f) in
  let values := map (fun level => summary (selected f x level)) levels in
  let cats := map (level_at levels) (argsort sorter values) in
  fct_reorder kind order sorter summary f x = as_factor f cats true
  /\ cats ≡ₚ levels.
Proof.
  intros Hcase levels values cats.
  assert (Hperm : argsort sorter values ≡ₚ seq 0 (length levels)).
  { rewrite (argsort_perm sorter). unfold values. by rewrite length_map. }
  split.
  - unfold fct_reorder. fold levels.
    rewrite level_values_ok.
    2:{ destruct Hcase as [?| ->]; [by left|right]. by apply levels_nil. }
    fold values. unfold mbind at 1, exn_bind at 1.
    rewrite take_indices_in_range; [done|].
    apply Forall_forall. intros a Ha. rewrite Hperm in Ha.
    by apply elem_of_seq in Ha as [_ ?].
  - unfold cats. change (@map nat string) with (@fmap list _ nat string).
    rewrite Hperm. apply reflexive_eq, level_at_seq.
Qed.

(** A call that returns had its masks accepted, or no level at all. *)
Lemma fct_reorder_returns_accepted kind f x c :
  fct_reorder kind order sorter summary f x = inr c ->
  mask_accepted kind f x \/ f = [].
Proof.
  intros Hrun. destruct f as [|v f]; [by right|]. left.
  destruct (decide (length (v :: f) = length x)) as [?|Hlen]; [by left|].
  assert (Hne : set_list order (list_to_set (v :: f)) ≠ []) by by rewrite levels_nil.
  unfold fct_reorder in Hrun. destruct kind.
  - by rewrite level_values_Array_mismatch in Hrun.
  - destruct (decide (length x < length (v :: f))%nat) as [?|Hge]; [by right|].
    rewrite level_values_Series_short in Hrun; [done|done|lia].
Qed.

(** X22. Where the masks are accepted ([f] and [x] of one length, or Series
    with more entries in [f] than in [x]), or [f] is empty, [fct_reorder]
    returns an ordered factor whose categories are the distinct entries of
    [f], each once, and whose values are the entries of [f] in their
    order, none of them turned into NaN. Otherwise the first mask is
    refused: NumPy arrays of different lengths raise [IndexError], Series
    with fewer entries in [f] than in [x] raise pandas' [IndexingError]. *)
Theorem fct_reorder_levels kind f x :
  (mask_accepted kind f x \/ f = [] ->
   exists c,
     fct_reorder kind order sorter summary f x = inr c
     /\ categories c ≡ₚ elements (list_to_set f : gset string)
     /\ NoDup (categories c)
     /\ cat_values c = map Some f
     /\ ordered c = true)
  /\ (f ≠ [] -> length f ≠ length x ->
      fct_reorder Array order sorter summary f x = inl IndexError)
  /\ (f ≠ [] -> (length f < length x)%nat ->
      fct_reorder Series order sorter summary f x = inl IndexingError).
Proof.
  split; [|split].
  - intros Hcase. destruct (fct_reorder_unfold kind f x Hcase) as [Hrun Hperm].
    cbv zeta in Hrun, Hperm.
    set (cats := map _ (argsort sorter _)) in *.
    assert (Hnd : NoDup cats).
    { rewrite Hperm, (set_list_perm order). apply NoDup_elements. }
    exists {| cat_values := map (code cats) f; categories := cats; ordered := true |}.
    split; [|split; [|split; [done|split; [|done]]]].
    + rewrite Hrun. unfold as_factor. by rewrite bool_decide_eq_true_2.
    + simpl. by rewrite Hperm, (set_list_perm order).
    + simpl. apply map_ext_in. intros v Hv%list_elem_of_In. unfold code.
      rewrite bool_decide_eq_true_2; [done|].
      by rewrite Hperm, (set_list_perm order), elem_of_elements,
        elem_of_list_to_set.
  - intros Hne Hlen. unfold fct_reorder.
    rewrite level_values_Array_mismatch; [done| |done]. by rewrite levels_nil.
  - intros Hne Hlen. unfold fct_reorder.
    rewrite level_values_Series_short; [done| |done]. by rewrite levels_nil.
Qed.

(** X23. The categories are in an order of non-decreasing summary: of two
    categories, the later one has a summary of its values of [x] that is
    not smaller. *)
Theorem fct_reorder_sorted kind f x c i j li lj :
  fct_reorder kind order sorter summary f x = inr c ->
  (i < j)%nat ->
  categories c !! i = Some li -> categories c !! j = Some lj ->
  (summary (selected f x li) <= summary (selected f x lj))%Q.
Proof.
  intros Hrun Hij Hi Hj.
  pose proof (fct_reorder_returns_accepted _ _ _ _ Hrun) as Hcase.
  destruct (fct_reorder_unfold kind f x Hcase) as [Hunf _]. cbv zeta in Hunf.
  rewrite Hunf in Hrun. unfold as_factor in Hrun.
  case_bool_decide; [|done]. injection Hrun as <-. simpl in Hi, Hj.
  set (levels := set_list order (list_to_set f)) in *.
  set (values := map (fun level => summary (selected f x level)) levels) in *.
  change (@map nat string) with (@fmap list _ nat string) in Hi, Hj.
  rewrite list_lookup_fmap in Hi, Hj.
  destruct (argsort sorter values !! i) as [a|] eqn:Ha; [|done].
  destruct (argsort sorter values !! j) as [b|] eqn:Hb; [|done].
  simpl in Hi, Hj. injection Hi as Hi. injection Hj as Hj.
  assert (Hrange : forall k n, argsort sorter values !! k = Some n ->
             (n < length levels)%nat).
  { intros k n Hk. apply list_elem_of_lookup_2 in Hk.
    rewrite (argsort_perm sorter) in Hk. unfold values in Hk.
    rewrite length_map in Hk. by apply elem_of_seq in Hk as [_ ?]. }
  assert (Hval : forall n l, (n < length levels)%nat -> level_at levels n = l ->
             values !! n = Some (summary (selected f x l))).
  { intros n l Hn Hl. unfold values.
    change (@map string Q) with (@fmap list _ string Q).
    rewrite list_lookup_fmap. unfold level_at in Hl.
    destruct (lookup_lt_is_Some_2 levels n Hn) as [l' Hl'].
    rewrite Hl' in Hl |- *. simpl in *. by subst. }
  apply (argsort_sorted sorter values i j a b); try done.
  - apply Hval; [by apply (Hrange i)|done].
  - apply Hval; [by apply (Hrange j)|done].
Qed.

End FctReorder.

Lemma fct_reorder_sorted_witness :
  (MoreExamples.sumQ (MutateHelpers.selected ["b"; "a"; "b"; "c"] [3; 1; 5; 2]%Q "c")
   <= MoreExamples.sumQ
        (MutateHelpers.selected ["b"; "a"; "b"; "c"] [3; 1; 5; 2]%Q "b"))%Q.
Proof.
  apply (fct_reorder_sorted Examples.order_b MutateHelpers.merge_sorter
           MoreExamples.sumQ MutateHelpers.Series ["b"; "a"; "b"; "c"] [3; 1; 5; 2]%Q
           {| MutateHelpers.cat_values := [Some "b"; Some "a"; Some "b"; Some "c"];
              MutateHelpers.categories := ["a"; "c"; "b"];
              MutateHelpers.ordered := true |}
           1 2 "c" "b").
  - by vm_compute.
  - lia.
  - reflexivity.
  - reflexivity.
Defined.
